(** * Inundation_differences: raster comparison scripts

    A shallow embedding of the two scripts of the repository

    - [Inundation_detector.py]: per-pixel confusion classification of a
      reference raster against resampled prediction rasters, with pixel
      counts, areas and percentages;
    - [NRMSE.py]: normalised root-mean-square error between a masked
      reference raster and masked, resampled prediction rasters.

    Rasters are 2-D numpy arrays, modelled as lists of rows.  File input
    and output, and the warping primitive [reproject], are external: the
    embedding takes what they deliver as arguments.

    Arithmetic is exact: the detector computes over [Q], the error
    comparator over [R] extended with the IEEE special values a division
    can produce.  Rounding and overflow of the machine formats are not
    part of the model. *)

From Stdlib Require Import String Ascii.
From Stdlib Require Import List ZArith QArith Qabs Qfield Bool.
From Stdlib Require Import Reals Lra Lia Psatz.
Import ListNotations.

Set Implicit Arguments.

(* ================================================================== *)
(** * The numpy operations the scripts use *)
(* ================================================================== *)

Module Numpy.

(** Element-wise combination of two one-dimensional buffers.  numpy
    applies it to operands of one common shape; the embedding's callers
    either establish that shape or check it first. *)
Fixpoint map2 {A B C : Type} (f : A -> B -> C)
         (xs : list A) (ys : list B) : list C :=
  match xs, ys with
  | x :: xs', y :: ys' => f x y :: map2 f xs' ys'
  | _, _ => []
  end.

(** A 2-D array: the list of its rows. *)
Definition ndarray (A : Type) : Type := list (list A).

(** [a.shape == b.shape] *)
Definition same_shape {A B : Type} (a : ndarray A) (b : ndarray B) : Prop :=
  Forall2 (fun r s => length r = length s) a b.

Fixpoint same_shapeb {A B : Type} (a : ndarray A) (b : ndarray B) : bool :=
  match a, b with
  | [], [] => true
  | r :: a', s :: b' => Nat.eqb (length r) (length s) && same_shapeb a' b'
  | _, _ => false
  end.

(** [a[i, j]] *)
Definition getitem {A : Type} (a : ndarray A) (i j : nat) : option A :=
  match nth_error a i with
  | Some row => nth_error row j
  | None => None
  end.

(** Unary and binary ufuncs. *)
Definition np_map {A B : Type} (f : A -> B) (a : ndarray A) : ndarray B :=
  map (map f) a.

Definition np_map2 {A B C : Type} (f : A -> B -> C)
           (a : ndarray A) (b : ndarray B) : ndarray C :=
  map2 (map2 f) a b.

(** [a.ravel()]: the elements in row-major order. *)
Definition ravel {A : Type} (a : ndarray A) : list A := concat a.

(** [np.full_like(a, v)] *)
Definition np_full_like {A B : Type} (a : ndarray A) (v : B) : ndarray B :=
  np_map (fun _ => v) a.

(** [m1 & m2] and [~m] on boolean arrays. *)
Definition np_logical_and (m1 m2 : ndarray bool) : ndarray bool :=
  np_map2 andb m1 m2.

Definition np_invert (m : ndarray bool) : ndarray bool := np_map negb m.

(** [np.sum(m)] of a boolean array: the number of [True] cells, an
    int64 no raster is large enough to overflow. *)
Definition count_true (l : list bool) : Z :=
  fold_right (fun b acc => (Z.b2z b + acc)%Z) 0%Z l.

Definition np_sum (m : ndarray bool) : Z := count_true (ravel m).

(** [a[mask] = v]: the cells selected by the mask are overwritten. *)
Definition setitem_mask {A : Type} (a : ndarray A) (mask : ndarray bool)
           (v : A) : ndarray A :=
  np_map2 (fun x (b : bool) => if b then v else x) a mask.

(** [a[mask]]: the selected cells, in row-major order. *)
Fixpoint select {A : Type} (mask : list bool) (xs : list A) : list A :=
  match mask, xs with
  | b :: mask', x :: xs' =>
      if b then x :: select mask' xs' else select mask' xs'
  | _, _ => []
  end.

Definition getitem_mask {A : Type} (a : ndarray A) (mask : ndarray bool)
  : list A :=
  select (ravel mask) (ravel a).

(** The destination of [reproject]: an array of the shape of [like]
    whose cell (i, j) holds what the warping primitive writes there. *)
Definition fill_row {A B : Type} (warp : nat -> B) (row : list A) : list B :=
  map warp (seq 0 (length row)).

Fixpoint fill_rows {A B : Type} (warp : nat -> nat -> B) (i : nat)
         (a : ndarray A) : ndarray B :=
  match a with
  | [] => []
  | row :: a' => fill_row (warp i) row :: fill_rows warp (S i) a'
  end.

Definition reproject_like {A B : Type} (like : ndarray A)
           (warp : nat -> nat -> B) : ndarray B :=
  fill_rows warp 0 like.

End Numpy.

(* ================================================================== *)
(** * Inundation_detector.py *)
(* ================================================================== *)

Module Inundation_detector.
Import Numpy.

(** A raster sample: a number, an infinity or a NaN.  Integer rasters
    use the [Val] samples with integral [q]. *)
Inductive pixel : Type :=
| Val (q : Q)
| Inf (negative : bool)
| NaN.

(** [x == y] and [x != y] on samples.  A NaN equals nothing, and [!=]
    is the negation of [==]. *)
Definition pixel_eqb (x y : pixel) : bool :=
  match x, y with
  | Val p, Val q => Qeq_bool p q
  | Inf s, Inf t => Bool.eqb s t
  | _, _ => false
  end.

Definition pixel_neb (x y : pixel) : bool := negb (pixel_eqb x y).

(** [a == v] and [a != v], array against scalar. *)
Definition np_eq (a : ndarray pixel) (v : pixel) : ndarray bool :=
  np_map (fun x => pixel_eqb x v) a.

Definition np_ne (a : ndarray pixel) (v : pixel) : ndarray bool :=
  np_map (fun x => pixel_neb x v) a.

(** Configuration. *)
Definition OUTPUT_DIR : string := "output".
Definition INUNDATED_VALUE : pixel := Val 1.
Definition NODATA_CLASS : Z := 255.

(** The affine transform of a raster profile, [Affine(a, b, c, d, e, f)];
    indexing runs over the nine entries of its matrix. *)
Record Affine : Type := mkAffine {
  af_a : Q; af_b : Q; af_c : Q; af_d : Q; af_e : Q; af_f : Q
}.

Definition affine_getitem (t : Affine) (i : nat) : Q :=
  nth i [af_a t; af_b t; af_c t; af_d t; af_e t; af_f t; 0; 0; 1]%Q 0%Q.

(** Line 31: [abs(transform[0] * transform[4])]. *)
Definition pixel_area (transform : Affine) : Q :=
  Qabs (affine_getitem transform 0 * affine_getitem transform 4).

Section Comparison.
Variable ref_array : ndarray pixel.
Variable resampled_coarse : ndarray pixel.
Variable positive_value : pixel.

(** Lines 55-57. *)
Definition valid_mask : ndarray bool :=
  np_logical_and (np_eq ref_array positive_value)
                 (np_eq resampled_coarse positive_value).

Definition false_negatives : ndarray bool :=
  np_logical_and (np_eq ref_array positive_value)
                 (np_ne resampled_coarse positive_value).

Definition false_positives : ndarray bool :=
  np_logical_and (np_ne ref_array positive_value)
                 (np_eq resampled_coarse positive_value).

(** Lines 60-63. *)
Definition classification : ndarray Z :=
  let c0 := np_full_like ref_array NODATA_CLASS in
  let c1 := setitem_mask c0 valid_mask 1%Z in
  let c2 := setitem_mask c1 false_negatives 2%Z in
  setitem_mask c2 false_positives 3%Z.
End Comparison.

(** One row of [inundation_stats.csv]. *)
Record StatsRow : Type := mkStatsRow {
  Resolution : string;
  True_Positives : Z;
  False_Negatives : Z;
  False_Positives : Z;
  TP_Area : Q;
  FN_Area : Q;
  FP_Area : Q;
  TP_pct : Q;
  FN_pct : Q;
  FP_pct : Q
}.

(** Lines 84-86:
    [(count / total) * 100 if total > 0 else 0]. *)
Definition percentage (count total : Z) : Q :=
  if (0 <? total)%Z then (inject_Z count / inject_Z total) * 100 else 0.

(** Lines 72-87: the statistics of one prediction. *)
Definition stats_entry (ref_array : ndarray pixel) (positive_value : pixel)
           (total_inundated_pixels : Z) (pixel_area : Q)
           (res : string) (resampled_coarse : ndarray pixel) : StatsRow :=
  let tp_count := np_sum (valid_mask ref_array resampled_coarse positive_value) in
  let fn_count := np_sum (false_negatives ref_array resampled_coarse positive_value) in
  let fp_count := np_sum (false_positives ref_array resampled_coarse positive_value) in
  {| Resolution := res;
     True_Positives := tp_count;
     False_Negatives := fn_count;
     False_Positives := fp_count;
     TP_Area := inject_Z tp_count * pixel_area;
     FN_Area := inject_Z fn_count * pixel_area;
     FP_Area := inject_Z fp_count * pixel_area;
     TP_pct := percentage tp_count total_inundated_pixels;
     FN_pct := percentage fn_count total_inundated_pixels;
     FP_pct := percentage fp_count total_inundated_pixels |}.

(** A prediction raster as the loop sees it: the name derived from its
    path and the values [reproject] writes into the destination. *)
Record Coarse : Type := mkCoarse {
  coarse_res : string;
  coarse_warp : nat -> nat -> pixel
}.

(** What [main] leaves behind: the classification rasters written and
    the rows of the statistics table. *)
Record Output : Type := mkOutput {
  rasters : list (string * ndarray Z);
  stats : list StatsRow
}.

(** Lines 35-87, one iteration. *)
Definition main_step (ref_array : ndarray pixel)
           (total_inundated_pixels : Z) (area : Q)
           (out : Output) (coarse : Coarse) : Output :=
  let res := coarse_res coarse in
  let output_path :=
    (OUTPUT_DIR ++ "/" ++ "classification_" ++ res ++ ".tif")%string in
  let resampled_coarse := reproject_like ref_array (coarse_warp coarse) in
  {| rasters := rasters out ++
       [(output_path, classification ref_array resampled_coarse INUNDATED_VALUE)];
     stats := stats out ++
       [stats_entry ref_array INUNDATED_VALUE total_inundated_pixels area
                    res resampled_coarse] |}.

(** Lines 19-87. *)
Definition main (ref_transform : Affine) (ref_array : ndarray pixel)
           (coarse_inputs : list Coarse) : Output :=
  let ref_mask := np_eq ref_array INUNDATED_VALUE in
  let total_inundated_pixels := np_sum ref_mask in
  let area := pixel_area ref_transform in
  fold_left (main_step ref_array total_inundated_pixels area)
            coarse_inputs
            {| rasters := []; stats := [] |}.

(** The labels of section 4.2 of the specification and their raster
    codes. *)
Inductive Label : Type := TruePositive | FalseNegative | FalsePositive | NoData.

Definition label_code (l : Label) : Z :=
  match l with
  | TruePositive => 1
  | FalseNegative => 2
  | FalsePositive => 3
  | NoData => NODATA_CLASS
  end.

(** The priority rule, as the specification words it. *)
Definition spec_label (reference prediction positive_value : pixel) : Label :=
  if pixel_eqb reference positive_value && pixel_eqb prediction positive_value
  then TruePositive
  else if pixel_eqb reference positive_value
          && negb (pixel_eqb prediction positive_value)
  then FalseNegative
  else if negb (pixel_eqb reference positive_value)
          && pixel_eqb prediction positive_value
  then FalsePositive
  else NoData.

(** The value the three labelling steps leave at a pixel, last write
    first. *)
Definition written (r p pv : pixel) : Z :=
  if negb (pixel_eqb r pv) && pixel_eqb p pv then 3%Z
  else if pixel_eqb r pv && negb (pixel_eqb p pv) then 2%Z
  else if pixel_eqb r pv && pixel_eqb p pv then 1%Z
  else NODATA_CLASS.

(** ** The rest of [main] *)

(** [p.rfind(c) + 1]: the position after the last occurrence of [c], 0
    when there is none. *)
Fixpoint rfind_succ (c : ascii) (p : string) : nat :=
  match p with
  | EmptyString => 0%nat
  | String a rest =>
      match rfind_succ c rest with
      | O => if Ascii.eqb a c then 1%nat else 0%nat
      | S k => S (S k)
      end
  end.

(** [p[n:]] *)
Fixpoint string_drop (n : nat) (p : string) : string :=
  match n, p with
  | O, _ => p
  | S _, EmptyString => EmptyString
  | S n', String _ rest => string_drop n' rest
  end.

(** [os.path.basename(p)] on a POSIX system: what follows the last
    slash. *)
Definition basename (p : string) : string :=
  string_drop (rfind_succ "/"%char p) p.

(** [s.split('.')[0]]: what precedes the first dot. *)
Fixpoint before_dot (s : string) : string :=
  match s with
  | EmptyString => EmptyString
  | String a rest =>
      if Ascii.eqb a "."%char then EmptyString else String a (before_dot rest)
  end.

(** Line 37. *)
Definition res_of_path (coarse_path : string) : string :=
  before_dot (basename coarse_path).

(** Line 38. *)
Definition output_path_of (res : string) : string :=
  (OUTPUT_DIR ++ "/" ++ "classification_" ++ res ++ ".tif")%string.

Fixpoint occurs (c : ascii) (s : string) : bool :=
  match s with
  | EmptyString => false
  | String a rest => Ascii.eqb a c || occurs c rest
  end.

(** A prediction raster of the loop, from its path and what [reproject]
    delivers for it. *)
Definition coarse_of_path (coarse_path : string)
           (warp : nat -> nat -> pixel) : Coarse :=
  {| coarse_res := res_of_path coarse_path; coarse_warp := warp |}.

(** The row and the raster one prediction contributes, lines 41-87 with
    the reference quantities of lines 29-31. *)
Definition row_of (t : Affine) (ref_array : ndarray pixel) (c : Coarse)
  : StatsRow :=
  stats_entry ref_array INUNDATED_VALUE
              (np_sum (np_eq ref_array INUNDATED_VALUE))
              (pixel_area t) (coarse_res c)
              (reproject_like ref_array (coarse_warp c)).

Definition raster_of (ref_array : ndarray pixel) (c : Coarse)
  : string * ndarray Z :=
  (output_path_of (coarse_res c),
   classification ref_array (reproject_like ref_array (coarse_warp c))
                  INUNDATED_VALUE).

(** The row of one prediction against its reference, with the total of
    lines 29-30. *)
Definition entry_of (ref_array resampled_coarse : ndarray pixel)
           (positive_value : pixel) (area : Q) (res : string) : StatsRow :=
  stats_entry ref_array positive_value
              (np_sum (np_eq ref_array positive_value))
              area res resampled_coarse.

(** [np.sum(c == v)] on the classification raster, and [a.size]. *)
Definition count_label (c : ndarray Z) (v : Z) : Z :=
  np_sum (np_map (Z.eqb v) c).

Definition size {A : Type} (a : ndarray A) : Z := Z.of_nat (length (ravel a)).

(** Sample rasters. *)
Definition px (z : Z) : pixel := Val (inject_Z z).

Definition ref_2x2 : ndarray pixel := [[px 1; px 0]; [px 1; px 0]].
Definition pred_2x2 : ndarray pixel := [[px 1; px 1]; [px 0; NaN]].

Definition pred_same_footprint : ndarray pixel :=
  [[px 1; px 5]; [px 1; NaN]].

Definition ref_1x3 : ndarray pixel := [[px 1; px 0; px 0]].
Definition pred_1x3 : ndarray pixel := [[px 1; px 1; px 1]].

Definition ones_4x4 : ndarray pixel :=
  [[px 1; px 1; px 1; px 1]; [px 1; px 1; px 1; px 1];
   [px 1; px 1; px 1; px 1]; [px 1; px 1; px 1; px 1]].
Definition zeros_4x4 : ndarray pixel :=
  [[px 0; px 0; px 0; px 0]; [px 0; px 0; px 0; px 0];
   [px 0; px 0; px 0; px 0]; [px 0; px 0; px 0; px 0]].

Definition warp_constant (v : pixel) : Coarse :=
  {| coarse_res := "prediction_15m"; coarse_warp := fun _ _ => v |}.

Definition transform_10m : Affine :=
  {| af_a := 10; af_b := 0; af_c := 500000;
     af_d := 0; af_e := -10; af_f := 4000000 |}.

End Inundation_detector.

(* ================================================================== *)
(** * NRMSE.py *)
(* ================================================================== *)

Module NRMSE.
Import Numpy.
Local Open Scope R_scope.

(** A scalar of the masked-array arithmetic: a real number, one of the
    special values of IEEE arithmetic, or [numpy.ma.masked], the constant
    a reduction over no element yields (it holds no number and prints as
    two dashes). *)
Inductive npfloat : Type :=
| Finite (x : R)
| PosInf
| NegInf
| NaN
| Masked.

Definition infinity (negative : bool) : npfloat :=
  if negative then NegInf else PosInf.

Definition is_negative (x : R) : bool :=
  if Rlt_dec x 0 then true else false.

Definition is_zero (x : R) : bool :=
  if Req_dec_T x 0 then true else false.

(** [x / y] on numpy scalars: a division by zero raises nothing, it
    yields an infinity, or NaN for 0 / 0.  The masked constant absorbs
    every operation. *)
Definition fdiv (x y : npfloat) : npfloat :=
  match x, y with
  | Masked, _ | _, Masked => Masked
  | NaN, _ | _, NaN => NaN
  | Finite a, Finite b =>
      if is_zero b
      then if is_zero a then NaN else infinity (is_negative a)
      else Finite (a / b)
  | Finite _, (PosInf | NegInf) => Finite 0
  | PosInf, Finite b => infinity (is_negative b)
  | NegInf, Finite b => infinity (negb (is_negative b))
  | (PosInf | NegInf), (PosInf | NegInf) => NaN
  end.

(** [x * y] on numpy scalars. *)
Definition fmul (x y : npfloat) : npfloat :=
  match x, y with
  | Masked, _ | _, Masked => Masked
  | NaN, _ | _, NaN => NaN
  | Finite a, Finite b => Finite (a * b)
  | Finite a, PosInf | PosInf, Finite a =>
      if is_zero a then NaN else infinity (is_negative a)
  | Finite a, NegInf | NegInf, Finite a =>
      if is_zero a then NaN else infinity (negb (is_negative a))
  | PosInf, PosInf | NegInf, NegInf => PosInf
  | PosInf, NegInf | NegInf, PosInf => NegInf
  end.

(** [np.sqrt] *)
Definition np_sqrt (x : npfloat) : npfloat :=
  match x with
  | Finite a => if is_negative a then NaN else Finite (sqrt a)
  | PosInf => PosInf
  | NegInf | NaN => NaN
  | Masked => Masked
  end.

(** Python exceptions. [ShapeError] stands for what numpy raises when
    two operands differ in shape (a [ValueError] from broadcasting or an
    [IndexError] from boolean indexing). *)
Inductive exn : Type :=
| ValueError (msg : string)
| ShapeError.

Inductive result (A : Type) : Type :=
| Ok (a : A)
| Raise (e : exn).
Arguments Ok {A} a.
Arguments Raise {A} e.

Definition bind {A B : Type} (m : result A) (k : A -> result B) : result B :=
  match m with
  | Ok a => k a
  | Raise e => Raise e
  end.

Notation "x <- m ;; k" := (bind m (fun x => k))
  (at level 61, m at next level, right associativity).

(** A masked array: every cell carries its sample and its mask flag,
    [true] where the sample is invalid.  Samples are finite. *)
Definition MaskedArray : Type := ndarray (R * bool).

Definition ma_data (a : MaskedArray) : ndarray R := np_map fst a.
Definition ma_mask (a : MaskedArray) : ndarray bool := np_map snd a.

(** Reductions over the selected samples. *)
Definition sum_R (l : list R) : R := fold_right Rplus 0 l.

(** [np.mean] of a masked array: sum over count, and the masked
    constant when the count is 0. *)
Definition np_mean (l : list R) : npfloat :=
  if Nat.eqb (length l) 0 then Masked
  else fdiv (Finite (sum_R l)) (Finite (INR (length l))).

(** [np.std]: population standard deviation. *)
Definition np_var (l : list R) : npfloat :=
  match np_mean l with
  | Finite m => np_mean (map (fun x => (x - m) ^ 2) l)
  | Masked => Masked
  | _ => NaN
  end.

Definition np_std (l : list R) : npfloat := np_sqrt (np_var l).

(** [.max()] and [.min()]: numpy refuses an empty operand. *)
Definition np_max (l : list R) : result R :=
  match l with
  | [] => Raise (ValueError
      "zero-size array to reduction operation maximum which has no identity")
  | x :: xs => Ok (fold_left Rmax xs x)
  end.

Definition np_min (l : list R) : result R :=
  match l with
  | [] => Raise (ValueError
      "zero-size array to reduction operation minimum which has no identity")
  | x :: xs => Ok (fold_left Rmin xs x)
  end.

(** Line 34. *)
Definition joint_mask (reference prediction : MaskedArray) : ndarray bool :=
  np_logical_and (np_invert (ma_mask reference))
                 (np_invert (ma_mask prediction)).

(** Lines 35-36. *)
Definition ref_values (reference prediction : MaskedArray) : list R :=
  getitem_mask (ma_data reference) (joint_mask reference prediction).

Definition pred_values (reference prediction : MaskedArray) : list R :=
  getitem_mask (ma_data prediction) (joint_mask reference prediction).

(** Line 39. *)
Definition rmse_of (ref_vals pred_vals : list R) : npfloat :=
  np_sqrt (np_mean (map (fun d => d ^ 2) (map2 Rminus ref_vals pred_vals))).

(** Lines 42-49. *)
Definition norm_factor_of (normalization : string) (ref_vals : list R)
  : result npfloat :=
  if (normalization =? "range")%string then
    mx <- np_max ref_vals ;;
    mn <- np_min ref_vals ;;
    Ok (Finite (mx - mn))
  else if (normalization =? "mean")%string then
    Ok (np_mean ref_vals)
  else if (normalization =? "std")%string then
    Ok (np_std ref_vals)
  else
    Raise (ValueError
      "Invalid normalization method. Choose 'range', 'mean', or 'std'.").

(** Lines 32-51.  Line 34 combines the two masks cell by cell and lines
    35-36 index each array with the result: numpy refuses operands whose
    shapes differ, before anything is computed. *)
Definition compute_nrmse (reference prediction : MaskedArray)
           (normalization : string) : result npfloat :=
  if same_shapeb reference prediction then
    let ref_vals := ref_values reference prediction in
    let pred_vals := pred_values reference prediction in
    let rmse := rmse_of ref_vals pred_vals in
    norm_factor <- norm_factor_of normalization ref_vals ;;
    Ok (fmul (fdiv rmse norm_factor) (Finite 100))
  else Raise ShapeError.

(** One entry of the result list of [process_nrmse]. *)
Record NrmseRecord : Type := mkNrmseRecord {
  variable : string;
  prediction_file : string;
  nrmse : npfloat;
  normalization_method : string
}.

(** The external collaborators of [process_nrmse]: the file system, the
    masked read of the reference band, and [resample_raster], which warps
    the raster at a path onto the grid of the reference. *)
Record World : Type := mkWorld {
  path_exists : string -> bool;
  read_masked : string -> MaskedArray;
  resample_raster : string -> MaskedArray -> MaskedArray
}.

Definition path_join (folder name : string) : string :=
  (folder ++ "/" ++ name)%string.

(** Lines 73-90: the loop over the prediction files. *)
Fixpoint process_predictions (w : World) (data_folder variable_name : string)
         (normalization_method : string) (ref_data : MaskedArray)
         (prediction_filenames : list string) (results : list NrmseRecord)
  : result (list NrmseRecord) :=
  match prediction_filenames with
  | [] => Ok results
  | pred_filename :: rest =>
      let pred_path := path_join data_folder pred_filename in
      if negb (path_exists w pred_path) then
        process_predictions w data_folder variable_name normalization_method
                            ref_data rest results
      else
        let resampled_pred := resample_raster w pred_path ref_data in
        nrmse <- compute_nrmse ref_data resampled_pred normalization_method ;;
        process_predictions w data_folder variable_name normalization_method
          ref_data rest
          (results ++ [ {| variable := variable_name;
                           prediction_file := pred_filename;
                           nrmse := nrmse;
                           normalization_method := normalization_method |} ])
  end.

(** Lines 53-92. *)
Definition process_nrmse (w : World) (data_folder variable_name : string)
           (normalization_method : string) : result (list NrmseRecord) :=
  let reference_filename := ("Max_" ++ variable_name ++ "_N10m.tif")%string in
  let prediction_filenames :=
    [ ("Max_" ++ variable_name ++ "_N15m.tif")%string;
      ("Max_" ++ variable_name ++ "_N20m.tif")%string;
      ("Max_" ++ variable_name ++ "_N30m.tif")%string ] in
  let reference_path := path_join data_folder reference_filename in
  let results := [] in
  if negb (path_exists w reference_path) then Ok results
  else
    let ref_data := read_masked w reference_path in
    process_predictions w data_folder variable_name normalization_method
                        ref_data prediction_filenames results.

(** ** The error comparator as section 4.3 of the specification words it *)

(** Step 1: the pairs of samples at the pixels valid in both arrays. *)
Definition jointly_valid (cells : (R * bool) * (R * bool)) : bool :=
  negb (snd (fst cells)) && negb (snd (snd cells)).

Definition spec_joint_pairs (reference prediction : MaskedArray)
  : list (R * R) :=
  map (fun cells => (fst (fst cells), fst (snd cells)))
      (filter jointly_valid (combine (ravel reference) (ravel prediction))).

(** Step 2: the square root of the mean of the squared differences. *)
Definition spec_rmse (pairs : list (R * R)) : R :=
  sqrt (sum_R (map (fun rp => (fst rp - snd rp) * (fst rp - snd rp)) pairs)
        / INR (length pairs)).

(** Step 3: the normalisation factor over the reference values. *)
Definition is_maximum (l : list R) (m : R) : Prop :=
  In m l /\ Forall (fun x => x <= m) l.

Definition is_minimum (l : list R) (m : R) : Prop :=
  In m l /\ Forall (fun x => m <= x) l.

Definition arithmetic_mean (l : list R) : R := sum_R l / INR (length l).

Inductive spec_norm_factor (refs : list R) : string -> R -> Prop :=
| norm_range mx mn :
    is_maximum refs mx -> is_minimum refs mn ->
    spec_norm_factor refs "range" (mx - mn)
| norm_mean :
    spec_norm_factor refs "mean" (arithmetic_mean refs)
| norm_std :
    spec_norm_factor refs "std"
      (sqrt (arithmetic_mean
               (map (fun x => (x - arithmetic_mean refs)
                              * (x - arithmetic_mean refs)) refs))).

(** Reference and prediction pixel-for-pixel identical over the joint
    mask. *)
Definition identical (pairs : list (R * R)) : Prop :=
  Forall (fun rp => fst rp = snd rp) pairs.

(** ** The rest of the script *)

(** Line 28, [np.ma.masked_invalid]: the samples that are not finite are
    masked.  A masked cell keeps no usable sample; the embedding stores 0
    there. *)
Definition masked_invalid_cell (x : npfloat) : R * bool :=
  match x with
  | Finite v => (v, false)
  | _ => (0, true)
  end.

Definition masked_invalid (a : ndarray npfloat) : MaskedArray :=
  np_map masked_invalid_cell a.

(** Lines 8-30, [resample_raster]: the destination has the shape of the
    reference raster, [reproject] fills it, and the invalid samples are
    masked. *)
Definition resample_onto (warp : nat -> nat -> npfloat)
           (ref_raster : MaskedArray) : MaskedArray :=
  let resampled_data := reproject_like ref_raster warp in
  masked_invalid resampled_data.

(** The world in which [resample_raster] is the function above, over
    what [reproject] delivers for each path. *)
Definition warp_world (path_exists : string -> bool)
           (read_masked : string -> MaskedArray)
           (warp : string -> nat -> nat -> npfloat) : World :=
  {| path_exists := path_exists;
     read_masked := read_masked;
     resample_raster := fun src_path ref_raster =>
                          resample_onto (warp src_path) ref_raster |}.

(** Lines 94-102. *)
Record Dataset : Type := mkDataset {
  var_folder : string;
  file_prefix : string;
  normalization : string
}.

Definition datasets : list Dataset :=
  [ {| var_folder := "depth"; file_prefix := "depth"; normalization := "range" |};
    {| var_folder := "speed"; file_prefix := "speed"; normalization := "range" |};
    {| var_folder := "solid_frac"; file_prefix := "solids_frac";
       normalization := "range" |};
    {| var_folder := "time"; file_prefix := "Inundation_time";
       normalization := "range" |};
    {| var_folder := "erosion"; file_prefix := "erosion";
       normalization := "range" |};
    {| var_folder := "IP"; file_prefix := "impact_pressure";
       normalization := "range" |} ].

(** Line 105. *)
Definition base_folder : string := "NRMSE".

(** Lines 108-117: the loop over the datasets. *)
Fixpoint collect_results (w : World) (ds : list Dataset)
         (all_results : list NrmseRecord) : result (list NrmseRecord) :=
  match ds with
  | [] => Ok all_results
  | dataset :: rest =>
      let data_folder_path := path_join base_folder (var_folder dataset) in
      results <- process_nrmse w data_folder_path (file_prefix dataset)
                               (normalization dataset) ;;
      collect_results w rest (all_results ++ results)
  end.

Definition script (w : World) : result (list NrmseRecord) :=
  collect_results w datasets [].

(** Lines 113 and 116: the folder of a dataset, and with lines 62, 71
    and 80 its reference raster and one of its resampled predictions. *)
Definition dataset_folder (d : Dataset) : string :=
  path_join base_folder (var_folder d).

Definition dataset_reference_path (d : Dataset) : string :=
  path_join (dataset_folder d) ("Max_" ++ file_prefix d ++ "_N10m.tif")%string.

Definition dataset_reference (w : World) (d : Dataset) : MaskedArray :=
  read_masked w (dataset_reference_path d).

Definition dataset_prediction (w : World) (d : Dataset) (pred_filename : string)
  : MaskedArray :=
  resample_raster w (path_join (dataset_folder d) pred_filename)
                  (dataset_reference w d).

(** The three prediction files of a variable, lines 56-60. *)
Definition prediction_filenames_of (variable_name : string) : list string :=
  [ ("Max_" ++ variable_name ++ "_N15m.tif")%string;
    ("Max_" ++ variable_name ++ "_N20m.tif")%string;
    ("Max_" ++ variable_name ++ "_N30m.tif")%string ].

Definition reference_path_of (data_folder variable_name : string) : string :=
  path_join data_folder ("Max_" ++ variable_name ++ "_N10m.tif")%string.

(** A record that reports the comparison of the reference with the
    resampled prediction file it names. *)
Definition reports_comparison (w : World) (data_folder variable_name : string)
           (normalization_method : string) (ref_data : MaskedArray)
           (r : NrmseRecord) : Prop :=
  variable r = variable_name /\
  NRMSE.normalization_method r = normalization_method /\
  compute_nrmse ref_data
                (resample_raster w (path_join data_folder (prediction_file r))
                                 ref_data)
                normalization_method
  = Ok (nrmse r).

(** The prediction file exists and its comparison succeeds or fails. *)
Definition compares_ok (w : World) (data_folder : string)
           (normalization_method : string) (ref_data : MaskedArray)
           (pred_filename : string) : Prop :=
  path_exists w (path_join data_folder pred_filename) = true ->
  exists v,
    compute_nrmse ref_data
                  (resample_raster w (path_join data_folder pred_filename)
                                   ref_data)
                  normalization_method = Ok v.

Definition compares_raising (w : World) (data_folder : string)
           (normalization_method : string) (ref_data : MaskedArray)
           (pred_filename : string) (e : exn) : Prop :=
  path_exists w (path_join data_folder pred_filename) = true /\
  compute_nrmse ref_data
                (resample_raster w (path_join data_folder pred_filename)
                                 ref_data)
                normalization_method = Raise e.

(** The second dataset of the script. *)
Definition speed_dataset : Dataset :=
  {| var_folder := "speed"; file_prefix := "speed"; normalization := "range" |}.

(** A world whose every file is present and whose predictions resample
    to all-invalid rasters, and the record of one undefined comparison. *)
Definition blank_world (a : MaskedArray) : World :=
  warp_world (fun _ => true) (fun _ => a) (fun _ _ _ => NaN).

Definition undefined_record : NrmseRecord :=
  {| variable := "v"; prediction_file := "Max_v_N20m.tif";
     nrmse := NaN; normalization_method := "range" |}.

(** A world in which the reference and the 20 m prediction exist. *)
Definition two_files (a : MaskedArray) : World :=
  {| path_exists := fun p => (p =? "d/Max_v_N10m.tif")%string
                             || (p =? "d/Max_v_N20m.tif")%string;
     read_masked := fun _ => a;
     resample_raster := fun _ _ => a |}.

(** Both rasters in other units: every sample times [c], or plus [k]. *)
Definition ma_scale (c : R) (a : MaskedArray) : MaskedArray :=
  np_map (fun cell => (c * fst cell, snd cell)) a.

Definition ma_shift (k : R) (a : MaskedArray) : MaskedArray :=
  np_map (fun cell => (fst cell + k, snd cell)) a.

(** Two masked arrays with the same mask and the same samples where
    the mask is clear. *)
Definition cell_agree (x y : R * bool) : Prop :=
  snd x = snd y /\ (snd x = false -> fst x = fst y).

Definition agree_unmasked (a b : MaskedArray) : Prop :=
  Forall2 (Forall2 cell_agree) a b.

(** The two exceptions [compute_nrmse] can raise on arrays of one shape:
    numpy's, from the maximum of no element, and the script's own. *)
Definition zero_size_maximum : exn :=
  ValueError
    "zero-size array to reduction operation maximum which has no identity".

Definition invalid_method : exn :=
  ValueError "Invalid normalization method. Choose 'range', 'mean', or 'std'.".

(** The values a comparison can return without being negative. *)
Definition never_negative (x : npfloat) : Prop :=
  match x with
  | Finite v => 0 <= v
  | PosInf | NaN => True
  | NegInf | Masked => False
  end.

(** What the script can put in a record: one of its variables, the
    'range' method, and a value that is not negative. *)
Definition script_record (r : NrmseRecord) : Prop :=
  In (variable r) (map file_prefix datasets) /\
  NRMSE.normalization_method r = "range"%string /\
  never_negative (nrmse r).

(** Sample rasters. *)
Definition cell (x : R) : R * bool := (x, false).
Definition masked (x : R) : R * bool := (x, true).

Definition ref_patch : MaskedArray := [[cell 1; cell 3]; [masked 7; cell 5]].
Definition pred_patch : MaskedArray := [[cell 1; cell 1]; [cell 0; masked 9]].

Definition ref_patch_refilled : MaskedArray :=
  [[cell 1; cell 3]; [masked (-9999); cell 5]].
Definition ref_single : MaskedArray := [[cell 4; masked 0]].
Definition pred_single : MaskedArray := [[cell 6; cell 1]].

Definition ref_negative : MaskedArray := [[cell (-1)]].
Definition pred_zero : MaskedArray := [[cell 0]].

Definition ref_constant : MaskedArray := [[cell 5; cell 5]].
Definition pred_off : MaskedArray := [[cell 5; cell 7]].

Definition ref_left_masked : MaskedArray := [[masked 1; cell 2]].
Definition pred_right_masked : MaskedArray := [[cell 1; masked 2]].

Definition ref_4x4 : MaskedArray :=
  [[cell 0; cell 100; cell 50; cell 50]; [cell 50; cell 50; cell 50; cell 50];
   [cell 50; cell 50; cell 50; cell 50]; [cell 50; cell 50; cell 50; cell 50]].
Definition pred_4x4 : MaskedArray :=
  [[cell 0; cell 100; cell 60; cell 50]; [cell 50; cell 50; cell 50; cell 50];
   [cell 50; cell 50; cell 50; cell 50]; [cell 50; cell 50; cell 50; cell 50]].

Definition no_files : World :=
  {| path_exists := fun _ => false;
     read_masked := fun _ => [];
     resample_raster := fun _ ref => ref |}.

Definition all_files (a : MaskedArray) : World :=
  {| path_exists := fun _ => true;
     read_masked := fun _ => a;
     resample_raster := fun _ _ => a |}.

End NRMSE.

(* ================================================================== *)
(** * Facts about the array operations *)
(* ================================================================== *)

Module NumpyFacts.
Import Numpy.

Lemma nth_error_map2 {A B C : Type} (f : A -> B -> C) xs ys i :
  nth_error (map2 f xs ys) i =
  match nth_error xs i, nth_error ys i with
  | Some x, Some y => Some (f x y)
  | _, _ => None
  end.
Proof.
  revert ys i; induction xs as [|x xs IH]; intros [|y ys] [|i]; simpl; auto.
  destruct (nth_error xs i); reflexivity.
Qed.

Lemma length_map2 {A B C : Type} (f : A -> B -> C) xs ys :
  length xs = length ys -> length (map2 f xs ys) = length xs.
Proof.
  revert ys; induction xs as [|x xs IH]; intros [|y ys] H; simpl in *;
    try discriminate; auto.
Qed.

Lemma getitem_np_map {A B : Type} (f : A -> B) a i j :
  getitem (np_map f a) i j = option_map f (getitem a i j).
Proof.
  unfold getitem, np_map.
  rewrite nth_error_map.
  destruct (nth_error a i) as [row|]; simpl; [|reflexivity].
  apply nth_error_map.
Qed.

Lemma getitem_np_map2 {A B C : Type} (f : A -> B -> C) a b i j :
  getitem (np_map2 f a b) i j =
  match getitem a i j, getitem b i j with
  | Some x, Some y => Some (f x y)
  | _, _ => None
  end.
Proof.
  unfold getitem, np_map2.
  rewrite nth_error_map2.
  destruct (nth_error a i) as [r|], (nth_error b i) as [s|]; simpl; auto.
  - apply nth_error_map2.
  - destruct (nth_error r j); reflexivity.
Qed.

Lemma same_shape_refl {A : Type} (a : ndarray A) : same_shape a a.
Proof. induction a; constructor; auto. Qed.

Lemma same_shape_sym {A B : Type} (a : ndarray A) (b : ndarray B) :
  same_shape a b -> same_shape b a.
Proof. induction 1; constructor; auto. Qed.

Lemma same_shape_trans {A B C : Type}
      (a : ndarray A) (b : ndarray B) (c : ndarray C) :
  same_shape a b -> same_shape b c -> same_shape a c.
Proof.
  unfold same_shape.
  intros Hab; revert c; induction Hab as [|r s a b Hrs Hab IH];
    intros c Hbc; inversion Hbc; subst; constructor.
  - congruence.
  - apply IH; assumption.
Qed.

Lemma same_shape_np_map {A B : Type} (f : A -> B) (a : ndarray A) :
  same_shape a (np_map f a).
Proof.
  induction a; constructor; auto.
  symmetry; apply length_map.
Qed.

Lemma same_shape_np_map2 {A B C : Type} (f : A -> B -> C) a b :
  same_shape a b -> same_shape a (np_map2 f a b).
Proof.
  induction 1; constructor; auto.
  symmetry; apply length_map2; assumption.
Qed.

Lemma same_shapeb_iff {A B : Type} (a : ndarray A) (b : ndarray B) :
  same_shapeb a b = true <-> same_shape a b.
Proof.
  revert b; induction a as [|r a IH]; intros [|s b]; simpl; split; intro H;
    try discriminate; try constructor; try (inversion H; fail).
  - apply andb_true_iff in H; destruct H as [H _]; apply Nat.eqb_eq, H.
  - apply andb_true_iff in H; destruct H as [_ H]; apply IH, H.
  - inversion H; subst; apply andb_true_iff; split;
      [apply Nat.eqb_eq | apply IH]; assumption.
Qed.

Lemma length_fill_row {A B : Type} (warp : nat -> B) (row : list A) :
  length (fill_row warp row) = length row.
Proof. unfold fill_row; rewrite length_map, length_seq; reflexivity. Qed.

Lemma same_shape_reproject_like {A B : Type} (like : ndarray A)
      (warp : nat -> nat -> B) :
  same_shape like (reproject_like like warp).
Proof.
  unfold reproject_like, same_shape; generalize 0%nat.
  induction like as [|row like IH]; intro i; simpl; constructor.
  - symmetry; apply length_fill_row.
  - apply IH.
Qed.

Lemma count_true_cons b l :
  count_true (b :: l) = (Z.b2z b + count_true l)%Z.
Proof. reflexivity. Qed.

Lemma count_true_app l1 l2 :
  count_true (l1 ++ l2) = (count_true l1 + count_true l2)%Z.
Proof.
  induction l1 as [|b l1 IH]; [reflexivity|].
  rewrite <- app_comm_cons, !count_true_cons, IH; lia.
Qed.

Lemma count_true_nonneg l : (0 <= count_true l)%Z.
Proof.
  induction l as [|b l IH]; [cbv; discriminate|].
  rewrite count_true_cons; destruct b; simpl Z.b2z; lia.
Qed.

Lemma np_sum_cons (row : list bool) (m : ndarray bool) :
  np_sum (row :: m) = (count_true row + np_sum m)%Z.
Proof. unfold np_sum, ravel; simpl; apply count_true_app. Qed.

Lemma np_sum_nonneg m : (0 <= np_sum m)%Z.
Proof. apply count_true_nonneg. Qed.

End NumpyFacts.

(* ================================================================== *)
(** * Properties of the classification comparator *)
(* ================================================================== *)

Module DetectorFacts.
Import Numpy NumpyFacts Inundation_detector.

(** The three masks, cell by cell. *)
Lemma getitem_valid_mask ref pred pv i j :
  getitem (valid_mask ref pred pv) i j =
  match getitem ref i j, getitem pred i j with
  | Some r, Some p => Some (pixel_eqb r pv && pixel_eqb p pv)
  | _, _ => None
  end.
Proof.
  unfold valid_mask, np_logical_and, np_eq.
  rewrite getitem_np_map2, !getitem_np_map.
  destruct (getitem ref i j), (getitem pred i j); reflexivity.
Qed.

Lemma getitem_false_negatives ref pred pv i j :
  getitem (false_negatives ref pred pv) i j =
  match getitem ref i j, getitem pred i j with
  | Some r, Some p => Some (pixel_eqb r pv && negb (pixel_eqb p pv))
  | _, _ => None
  end.
Proof.
  unfold false_negatives, np_logical_and, np_eq, np_ne, pixel_neb.
  rewrite getitem_np_map2, !getitem_np_map.
  destruct (getitem ref i j), (getitem pred i j); reflexivity.
Qed.

Lemma getitem_false_positives ref pred pv i j :
  getitem (false_positives ref pred pv) i j =
  match getitem ref i j, getitem pred i j with
  | Some r, Some p => Some (negb (pixel_eqb r pv) && pixel_eqb p pv)
  | _, _ => None
  end.
Proof.
  unfold false_positives, np_logical_and, np_eq, np_ne, pixel_neb.
  rewrite getitem_np_map2, !getitem_np_map.
  destruct (getitem ref i j), (getitem pred i j); reflexivity.
Qed.

Lemma getitem_setitem_mask {A : Type} (a : ndarray A) mask v i j :
  getitem (setitem_mask a mask v) i j =
  match getitem a i j, getitem mask i j with
  | Some x, Some b => Some (if b then v else x)
  | _, _ => None
  end.
Proof. unfold setitem_mask; apply getitem_np_map2. Qed.

Lemma getitem_classification ref pred pv i j :
  getitem (classification ref pred pv) i j =
  match getitem ref i j, getitem pred i j with
  | Some r, Some p => Some (written r p pv)
  | _, _ => None
  end.
Proof.
  unfold classification; cbv zeta.
  rewrite !getitem_setitem_mask.
  rewrite getitem_valid_mask, getitem_false_negatives, getitem_false_positives.
  unfold np_full_like; rewrite getitem_np_map.
  destruct (getitem ref i j), (getitem pred i j); reflexivity.
Qed.

Lemma same_shape_setitem_mask {A B : Type} (like : ndarray B)
      (a : ndarray A) mask v :
  same_shape like a -> same_shape like mask ->
  same_shape like (setitem_mask a mask v).
Proof.
  intros Ha Hm. apply same_shape_trans with (b := a); [assumption|].
  apply same_shape_np_map2.
  apply same_shape_trans with (b := like); [apply same_shape_sym|]; assumption.
Qed.

Lemma same_shape_mask (f g : pixel -> bool) ref pred :
  same_shape ref pred ->
  same_shape ref (np_logical_and (np_map f ref) (np_map g pred)).
Proof.
  intro H. apply same_shape_trans with (b := np_map f ref).
  - apply same_shape_np_map.
  - apply same_shape_np_map2.
    apply same_shape_trans with (b := ref);
      [apply same_shape_sym, same_shape_np_map|].
    apply same_shape_trans with (b := pred);
      [assumption | apply same_shape_np_map].
Qed.

Lemma same_shape_classification ref pred pv :
  same_shape ref pred -> same_shape ref (classification ref pred pv).
Proof.
  intro H. unfold classification; cbv zeta.
  repeat apply same_shape_setitem_mask;
    try (apply same_shape_mask; assumption).
  apply same_shape_np_map.
Qed.

(** Counting a row: the positive reference cells split into those the
    prediction hits and those it misses. *)
Lemma count_row_split (f g : pixel -> bool) (r s : list pixel) :
  length r = length s ->
  (count_true (map2 andb (map f r) (map g s))
   + count_true (map2 andb (map f r) (map (fun x => negb (g x)) s))
   = count_true (map f r))%Z.
Proof.
  revert s; induction r as [|x r IH]; intros [|y s] H; simpl in H;
    try discriminate; [reflexivity|].
  injection H as H. specialize (IH s H).
  cbn [map map2]. rewrite !count_true_cons.
  destruct (f x), (g y); simpl Z.b2z; simpl andb; simpl Z.b2z; lia.
Qed.

Lemma count_split (f g : pixel -> bool) ref pred :
  same_shape ref pred ->
  (np_sum (np_logical_and (np_map f ref) (np_map g pred))
   + np_sum (np_logical_and (np_map f ref)
                            (np_map (fun x => negb (g x)) pred))
   = np_sum (np_map f ref))%Z.
Proof.
  induction 1 as [|r s ref pred Hrs Hshape IH]; [reflexivity|].
  unfold np_logical_and, np_map2, np_map in *. cbn [map map2].
  rewrite !np_sum_cons.
  pose proof (count_row_split f g r s Hrs). lia.
Qed.

Lemma tp_plus_fn ref pred pv :
  same_shape ref pred ->
  (np_sum (valid_mask ref pred pv) + np_sum (false_negatives ref pred pv)
   = np_sum (np_eq ref pv))%Z.
Proof.
  intro H. unfold valid_mask, false_negatives, np_eq, np_ne, pixel_neb.
  apply (count_split (fun x => pixel_eqb x pv) (fun x => pixel_eqb x pv)).
  assumption.
Qed.

(** Percentages. *)
Lemma percentage_zero_total count : percentage count 0 = 0%Q.
Proof. reflexivity. Qed.

Lemma percentage_nonneg count total :
  (0 <= count)%Z -> (0 <= percentage count total)%Q.
Proof.
  intro Hc. unfold percentage.
  destruct (0 <? total)%Z eqn:Ht; [|apply Qle_refl].
  apply Z.ltb_lt in Ht.
  apply Qmult_le_0_compat; [|discriminate].
  apply Qle_shift_div_l.
  - change (inject_Z 0 < inject_Z total)%Q; rewrite <- Zlt_Qlt; assumption.
  - rewrite Qmult_0_l.
    change (inject_Z 0 <= inject_Z count)%Q; rewrite <- Zle_Qle; assumption.
Qed.

Lemma percentage_le_100 count total :
  (0 < total)%Z -> (count <= total)%Z -> (percentage count total <= 100)%Q.
Proof.
  intros Ht Hc. unfold percentage.
  apply Z.ltb_lt in Ht as Htb; rewrite Htb.
  assert (H1 : (inject_Z count / inject_Z total <= 1)%Q).
  { apply Qle_shift_div_r.
    - change (inject_Z 0 < inject_Z total)%Q; rewrite <- Zlt_Qlt; assumption.
    - rewrite Qmult_1_l. rewrite <- Zle_Qle; assumption. }
  lra.
Qed.

End DetectorFacts.

(* ================================================================== *)
(** * The classification comparator against the specification *)
(* ================================================================== *)

Module DetectorSpec.
Import Numpy NumpyFacts Inundation_detector DetectorFacts.

(** C1. For every reference array, aligned prediction array and
    positive value, the classification raster has the reference's shape
    and holds at each pixel the code of the label the priority rule
    assigns to the two samples there: True Positive, else False
    Negative, else False Positive, else No-Data. *)
Theorem classification_priority_rule ref pred pv i j r p :
  same_shape ref pred ->
  getitem ref i j = Some r ->
  getitem pred i j = Some p ->
  same_shape ref (classification ref pred pv) /\
  getitem (classification ref pred pv) i j
  = Some (label_code (spec_label r p pv)).
Proof.
  intros Hshape Hr Hp; split.
  - apply same_shape_classification; assumption.
  - rewrite getitem_classification, Hr, Hp.
    unfold spec_label, written.
    destruct (pixel_eqb r pv), (pixel_eqb p pv); reflexivity.
Qed.

Lemma classification_priority_rule_witness :
  same_shape ref_2x2 pred_2x2 /\
  getitem ref_2x2 0 1 = Some (px 0) /\
  getitem pred_2x2 0 1 = Some (px 1) /\
  same_shape ref_2x2 (classification ref_2x2 pred_2x2 INUNDATED_VALUE) /\
  getitem (classification ref_2x2 pred_2x2 INUNDATED_VALUE) 0 1
  = Some (label_code (spec_label (px 0) (px 1) INUNDATED_VALUE)).
Proof.
  assert (Hshape : same_shape ref_2x2 pred_2x2) by (repeat constructor).
  split; [exact Hshape|].
  split; [reflexivity|].
  split; [reflexivity|].
  apply (@classification_priority_rule ref_2x2 pred_2x2 INUNDATED_VALUE
           0%nat 1%nat (px 0) (px 1) Hshape); reflexivity.
Defined.

(** C3. For every reference array, prediction array and positive value,
    the true-positive and false-negative counts of the statistics row
    add up to the number of reference pixels equal to the positive
    value; the sum is the same for any two predictions. *)
Theorem tp_fn_count_total ref pred pv total area res :
  same_shape ref pred ->
  let row := stats_entry ref pv total area res pred in
  (True_Positives row + False_Negatives row = np_sum (np_eq ref pv))%Z /\
  forall pred' res',
    same_shape ref pred' ->
    let row' := stats_entry ref pv total area res' pred' in
    (True_Positives row' + False_Negatives row'
     = True_Positives row + False_Negatives row)%Z.
Proof.
  intros Hshape row; subst row; cbn [stats_entry True_Positives False_Negatives].
  split.
  - apply tp_plus_fn; assumption.
  - intros pred' res' Hshape'.
    rewrite !tp_plus_fn by assumption; reflexivity.
Qed.

Lemma tp_fn_count_total_witness :
  same_shape ref_2x2 pred_2x2 /\
  (True_Positives (stats_entry ref_2x2 INUNDATED_VALUE 2 100 "prediction_15m" pred_2x2)
   + False_Negatives (stats_entry ref_2x2 INUNDATED_VALUE 2 100 "prediction_15m" pred_2x2)
   = np_sum (np_eq ref_2x2 INUNDATED_VALUE))%Z.
Proof.
  assert (Hshape : same_shape ref_2x2 pred_2x2) by (repeat constructor).
  split; [exact Hshape|].
  exact (proj1 (@tp_fn_count_total ref_2x2 pred_2x2 INUNDATED_VALUE
                  2%Z 100%Q "prediction_15m"%string Hshape)).
Defined.

(** C4, as the specification states it, fails for the false-positive
    percentage: with one inundated reference pixel and two false
    positives it is 200. *)
Lemma fp_percentage_counterexample :
  same_shape ref_1x3 pred_1x3 /\
  (0 < np_sum (np_eq ref_1x3 INUNDATED_VALUE))%Z /\
  ~ (FP_pct (stats_entry ref_1x3 INUNDATED_VALUE
                         (np_sum (np_eq ref_1x3 INUNDATED_VALUE))
                         (pixel_area transform_10m)
                         "prediction_15m" pred_1x3) <= 100)%Q.
Proof.
  split; [repeat constructor|].
  split; [reflexivity|].
  intro H; vm_compute in H; apply H; reflexivity.
Qed.

(** C4, amended. With total_positive the number of reference pixels
    equal to the positive value: when total_positive > 0 the TP and FN
    percentages lie in [0, 100] and the FP percentage is non-negative
    (it is not bounded by 100); when total_positive = 0 all three
    percentages are exactly 0. *)
Theorem percentages_bounds ref pred pv area res :
  same_shape ref pred ->
  let total := np_sum (np_eq ref pv) in
  let row := stats_entry ref pv total area res pred in
  ((0 < total)%Z ->
     (0 <= TP_pct row)%Q /\ (TP_pct row <= 100)%Q /\
     (0 <= FN_pct row)%Q /\ (FN_pct row <= 100)%Q /\
     (0 <= FP_pct row)%Q) /\
  (total = 0%Z ->
     TP_pct row = 0%Q /\ FN_pct row = 0%Q /\ FP_pct row = 0%Q).
Proof.
  intros Hshape total row; subst row.
  cbn [stats_entry TP_pct FN_pct FP_pct].
  pose proof (tp_plus_fn pv Hshape) as Hsum; fold total in Hsum.
  pose proof (np_sum_nonneg (valid_mask ref pred pv)) as Htp.
  pose proof (np_sum_nonneg (false_negatives ref pred pv)) as Hfn.
  pose proof (np_sum_nonneg (false_positives ref pred pv)) as Hfp.
  split.
  - intro Htotal.
    repeat split;
      solve [ apply percentage_nonneg; assumption
            | apply percentage_le_100; lia ].
  - intro H0; rewrite H0.
    repeat split; apply percentage_zero_total.
Qed.

Lemma percentages_bounds_witness :
  same_shape ref_1x3 pred_1x3 /\
  (0 < np_sum (np_eq ref_1x3 INUNDATED_VALUE))%Z /\
  (TP_pct (stats_entry ref_1x3 INUNDATED_VALUE
                       (np_sum (np_eq ref_1x3 INUNDATED_VALUE))
                       100 "prediction_15m" pred_1x3) <= 100)%Q.
Proof.
  assert (Hshape : same_shape ref_1x3 pred_1x3) by (repeat constructor).
  assert (Htotal : (0 < np_sum (np_eq ref_1x3 INUNDATED_VALUE))%Z)
    by reflexivity.
  split; [exact Hshape|]. split; [exact Htotal|].
  exact (proj1 (proj2 (proj1 (@percentages_bounds ref_1x3 pred_1x3
           INUNDATED_VALUE 100%Q "prediction_15m"%string Hshape) Htotal))).
Defined.

(** The statistics table keeps its rows through later iterations. *)
Lemma stats_fold_left ref total area (P : StatsRow -> Prop) coarse_inputs :
  (forall res warped, P (stats_entry ref INUNDATED_VALUE total area res warped)) ->
  forall out,
    Forall P (stats out) ->
    Forall P (stats (fold_left (main_step ref total area) coarse_inputs out)).
Proof.
  intro Hentry.
  induction coarse_inputs as [|c cs IH]; intros out Hout; simpl; [assumption|].
  apply IH. unfold main_step; cbn [stats].
  apply Forall_app; split; [assumption|].
  constructor; [apply Hentry | constructor].
Qed.

Lemma stats_length ref total area coarse_inputs :
  forall out,
    length (stats (fold_left (main_step ref total area) coarse_inputs out))
    = (length (stats out) + length coarse_inputs)%nat.
Proof.
  induction coarse_inputs as [|c cs IH]; intro out; simpl; [lia|].
  rewrite IH. unfold main_step; cbn [stats].
  rewrite length_app; simpl; lia.
Qed.

(** C9. [main] writes one statistics row per prediction raster, and in
    every row each area field is the corresponding pixel count times
    pixel_area, where pixel_area is the absolute value of the product of
    the entries 0 and 4 of the reference transform. *)
Theorem area_fields_exact transform ref coarse_inputs :
  pixel_area transform
  = Qabs (affine_getitem transform 0 * affine_getitem transform 4) /\
  length (stats (main transform ref coarse_inputs)) = length coarse_inputs /\
  Forall (fun row =>
            TP_Area row = (inject_Z (True_Positives row) * pixel_area transform)%Q /\
            FN_Area row = (inject_Z (False_Negatives row) * pixel_area transform)%Q /\
            FP_Area row = (inject_Z (False_Positives row) * pixel_area transform)%Q)
         (stats (main transform ref coarse_inputs)).
Proof.
  split; [reflexivity|]. unfold main; cbv zeta. split.
  - rewrite stats_length; reflexivity.
  - apply stats_fold_left; [|constructor].
    intros res warped; repeat split.
Qed.

(** C10. For every reference array and aligned prediction array, at
    each pixel at most one of the three masks (True Positive, False
    Negative, False Positive) is set, so at most one labelling step
    writes over the initial fill of 255, and the pixel of the
    classification raster holds one of the values 1, 2, 3, 255. *)
Theorem masks_pairwise_disjoint ref pred pv :
  same_shape ref pred ->
  same_shape ref (classification ref pred pv) /\
  (forall i j tp fn fp,
      getitem (valid_mask ref pred pv) i j = Some tp ->
      getitem (false_negatives ref pred pv) i j = Some fn ->
      getitem (false_positives ref pred pv) i j = Some fp ->
      tp && fn = false /\ tp && fp = false /\ fn && fp = false /\
      (Z.b2z tp + Z.b2z fn + Z.b2z fp <= 1)%Z) /\
  (forall i j v,
      getitem (classification ref pred pv) i j = Some v ->
      v = 1%Z \/ v = 2%Z \/ v = 3%Z \/ v = 255%Z).
Proof.
  intro Hshape. split; [apply same_shape_classification; assumption|]. split.
  - intros i j tp fn fp.
    rewrite getitem_valid_mask, getitem_false_negatives,
      getitem_false_positives.
    destruct (getitem ref i j) as [r|]; [|discriminate].
    destruct (getitem pred i j) as [p|]; [|discriminate].
    intros [= <-] [= <-] [= <-].
    destruct (pixel_eqb r pv), (pixel_eqb p pv); cbn; repeat split; lia.
  - intros i j v. rewrite getitem_classification.
    destruct (getitem ref i j) as [r|]; [|discriminate].
    destruct (getitem pred i j) as [p|]; [|discriminate].
    intros [= <-]. unfold written.
    destruct (pixel_eqb r pv), (pixel_eqb p pv); cbn; auto.
Qed.

Lemma masks_pairwise_disjoint_witness :
  same_shape ref_2x2 pred_2x2 /\
  same_shape ref_2x2 (classification ref_2x2 pred_2x2 INUNDATED_VALUE).
Proof.
  assert (Hshape : same_shape ref_2x2 pred_2x2) by (repeat constructor).
  split; [exact Hshape|].
  exact (proj1 (@masks_pairwise_disjoint ref_2x2 pred_2x2 INUNDATED_VALUE
                  Hshape)).
Defined.

(** Scenario A: a 4x4 reference of ones against a prediction of ones. *)
Example scenario_all_hit :
  exists row,
    stats (main transform_10m ones_4x4 [warp_constant (px 1)]) = [row] /\
    True_Positives row = 16%Z /\ False_Negatives row = 0%Z /\
    False_Positives row = 0%Z /\ (TP_pct row == 100)%Q /\
    (TP_Area row == 1600)%Q.
Proof. eexists; split; [reflexivity|]; repeat split. Qed.

(** Scenario B: the same reference against a prediction of zeros. *)
Example scenario_all_missed :
  exists row,
    stats (main transform_10m ones_4x4 [warp_constant (px 0)]) = [row] /\
    False_Negatives row = 16%Z /\ (TP_pct row == 0)%Q /\
    (FN_pct row == 100)%Q.
Proof. eexists; split; [reflexivity|]; repeat split. Qed.

End DetectorSpec.

(* ================================================================== *)
(** * Facts about the error comparator *)
(* ================================================================== *)

Module NRMSEFacts.
Import Numpy NumpyFacts NRMSE.
Local Open Scope R_scope.

(** ** Tests on reals *)

Lemma is_zero_true x : x = 0 -> is_zero x = true.
Proof. intro H; unfold is_zero; destruct (Req_dec_T x 0); [reflexivity | contradiction]. Qed.

Lemma is_zero_false x : x <> 0 -> is_zero x = false.
Proof. intro H; unfold is_zero; destruct (Req_dec_T x 0); [contradiction | reflexivity]. Qed.

Lemma is_negative_true x : x < 0 -> is_negative x = true.
Proof. intro H; unfold is_negative; destruct (Rlt_dec x 0); [reflexivity | contradiction]. Qed.

Lemma is_negative_false x : 0 <= x -> is_negative x = false.
Proof. intro H; unfold is_negative; destruct (Rlt_dec x 0); [lra | reflexivity]. Qed.

Lemma INR_length_pos {A : Type} (l : list A) : l <> [] -> 0 < INR (length l).
Proof.
  destruct l as [|x l]; [congruence|]; intros _.
  apply lt_0_INR; simpl; lia.
Qed.

(** ** Flattening *)

Lemma ravel_np_map {A B : Type} (f : A -> B) (a : ndarray A) :
  ravel (np_map f a) = map f (ravel a).
Proof. unfold ravel, np_map; symmetry; apply concat_map. Qed.

Lemma map2_app {A B C : Type} (f : A -> B -> C) r s a b :
  length r = length s ->
  map2 f (r ++ a) (s ++ b) = map2 f r s ++ map2 f a b.
Proof.
  revert s; induction r as [|x r IH]; intros [|y s] H; simpl in H;
    try discriminate; [reflexivity|].
  simpl; f_equal; apply IH; congruence.
Qed.

Lemma ravel_np_map2 {A B C : Type} (f : A -> B -> C) a b :
  same_shape a b -> ravel (np_map2 f a b) = map2 f (ravel a) (ravel b).
Proof.
  unfold ravel, np_map2.
  induction 1 as [|r s a b Hrs Hshape IH]; [reflexivity|].
  simpl; rewrite IH, map2_app by assumption; reflexivity.
Qed.

Lemma combine_app {A B : Type} (r a : list A) (s b : list B) :
  length r = length s -> combine (r ++ a) (s ++ b) = combine r s ++ combine a b.
Proof.
  revert s; induction r as [|x r IH]; intros [|y s] H; simpl in H;
    try discriminate; [reflexivity|].
  simpl; f_equal; apply IH; congruence.
Qed.

(** ** Boolean indexing against filtering the pairs *)

Lemma select_joint_fst (xs ys : list (R * bool)) :
  select (map2 andb (map negb (map snd xs)) (map negb (map snd ys)))
         (map fst xs)
  = map (fun cells => fst (fst cells)) (filter jointly_valid (combine xs ys)).
Proof.
  revert ys; induction xs as [|[x mx] xs IH]; intros [|[y my] ys];
    try reflexivity.
  cbn [map map2 select combine filter fst snd].
  unfold jointly_valid at 1; cbn [fst snd].
  destruct (negb mx && negb my); cbn [map fst]; rewrite IH; reflexivity.
Qed.

Lemma select_joint_snd (xs ys : list (R * bool)) :
  select (map2 andb (map negb (map snd xs)) (map negb (map snd ys)))
         (map fst ys)
  = map (fun cells => fst (snd cells)) (filter jointly_valid (combine xs ys)).
Proof.
  revert ys; induction xs as [|[x mx] xs IH]; intros [|[y my] ys];
    try reflexivity.
  cbn [map map2 select combine filter fst snd].
  unfold jointly_valid at 1; cbn [fst snd].
  destruct (negb mx && negb my); cbn [map fst snd]; rewrite IH; reflexivity.
Qed.

Lemma ravel_joint_mask reference prediction :
  same_shape reference prediction ->
  ravel (joint_mask reference prediction)
  = map2 andb (map negb (map snd (ravel reference)))
              (map negb (map snd (ravel prediction))).
Proof.
  intro H. unfold joint_mask, np_logical_and, np_invert, ma_mask.
  rewrite ravel_np_map2, !ravel_np_map; [reflexivity|].
  apply same_shape_trans with (b := reference).
  - apply same_shape_sym.
    apply same_shape_trans with (b := np_map snd reference);
      apply same_shape_np_map.
  - apply same_shape_trans with (b := prediction); [assumption|].
    apply same_shape_trans with (b := np_map snd prediction);
      apply same_shape_np_map.
Qed.

Lemma ref_values_spec reference prediction :
  same_shape reference prediction ->
  ref_values reference prediction
  = map fst (spec_joint_pairs reference prediction).
Proof.
  intro H. unfold ref_values, getitem_mask, ma_data, spec_joint_pairs.
  rewrite ravel_joint_mask, ravel_np_map, select_joint_fst by assumption.
  rewrite map_map; reflexivity.
Qed.

Lemma pred_values_spec reference prediction :
  same_shape reference prediction ->
  pred_values reference prediction
  = map snd (spec_joint_pairs reference prediction).
Proof.
  intro H. unfold pred_values, getitem_mask, ma_data, spec_joint_pairs.
  rewrite ravel_joint_mask, ravel_np_map, select_joint_snd by assumption.
  rewrite map_map; reflexivity.
Qed.

(** ** Mean, squares and the RMSE *)

Lemma np_mean_nonempty l :
  l <> [] -> np_mean l = Finite (arithmetic_mean l).
Proof.
  intro H. unfold np_mean, fdiv, arithmetic_mean.
  destruct l as [|x l]; [congruence|]. cbn [length Nat.eqb].
  rewrite is_zero_false; [reflexivity|].
  pose proof (INR_length_pos H); cbn [length] in *; lra.
Qed.

Lemma np_mean_empty : np_mean [] = Masked.
Proof. reflexivity. Qed.

Lemma sum_squares_nonneg {A : Type} (f : A -> R) l :
  0 <= sum_R (map (fun x => f x * f x) l).
Proof.
  induction l as [|x l IH]; simpl; [lra|].
  pose proof (Rle_0_sqr (f x)) as Hsq; unfold Rsqr in Hsq; lra.
Qed.

Lemma mean_squares_nonneg {A : Type} (f : A -> R) l :
  0 <= arithmetic_mean (map (fun x => f x * f x) l).
Proof.
  unfold arithmetic_mean.
  destruct l as [|x l].
  - simpl. rewrite Rdiv_0_l; lra.
  - apply Rmult_le_pos; [apply sum_squares_nonneg|].
    apply Rlt_le, Rinv_0_lt_compat, INR_length_pos; discriminate.
Qed.

Lemma squared_differences (pairs : list (R * R)) :
  map (fun d => d ^ 2) (map2 Rminus (map fst pairs) (map snd pairs))
  = map (fun rp => (fst rp - snd rp) * (fst rp - snd rp)) pairs.
Proof.
  induction pairs as [|[r p] pairs IH]; [reflexivity|].
  cbn [map map2 fst snd]; rewrite IH; f_equal; ring.
Qed.

Lemma rmse_of_pairs (pairs : list (R * R)) :
  pairs <> [] ->
  rmse_of (map fst pairs) (map snd pairs) = Finite (spec_rmse pairs).
Proof.
  intro H. unfold rmse_of; rewrite squared_differences.
  rewrite np_mean_nonempty by (destruct pairs; [congruence | discriminate]).
  unfold np_sqrt; rewrite is_negative_false by apply mean_squares_nonneg.
  unfold spec_rmse, arithmetic_mean; rewrite length_map; reflexivity.
Qed.

Lemma rmse_of_empty : rmse_of [] [] = Masked.
Proof. unfold rmse_of; cbn [map map2]; rewrite np_mean_empty; reflexivity. Qed.

Lemma spec_rmse_nonneg pairs : 0 <= spec_rmse pairs.
Proof. apply sqrt_pos. Qed.

(** Identical samples give a zero RMSE, and only they do. *)
Lemma sum_squares_identical pairs :
  identical pairs ->
  sum_R (map (fun rp => (fst rp - snd rp) * (fst rp - snd rp)) pairs) = 0.
Proof.
  induction 1 as [|[r p] pairs Hrp Hall IH]; simpl in *; [reflexivity|].
  rewrite IH, Hrp; ring.
Qed.

Lemma sum_squares_zero pairs :
  sum_R (map (fun rp => (fst rp - snd rp) * (fst rp - snd rp)) pairs) = 0 ->
  identical pairs.
Proof.
  induction pairs as [|[r p] pairs IH]; intro H; [constructor|].
  simpl in H.
  pose proof (sum_squares_nonneg (fun rp : R * R => fst rp - snd rp) pairs) as Hs.
  pose proof (Rle_0_sqr (r - p)) as Hsq; unfold Rsqr in Hsq.
  constructor.
  - simpl. assert (Hz : (r - p) * (r - p) = 0) by lra.
    apply Rmult_integral in Hz; lra.
  - apply IH; lra.
Qed.

Lemma spec_rmse_identical pairs : identical pairs -> spec_rmse pairs = 0.
Proof.
  intro H. unfold spec_rmse.
  rewrite sum_squares_identical by assumption.
  rewrite Rdiv_0_l; apply sqrt_0.
Qed.

Lemma spec_rmse_positive pairs :
  pairs <> [] -> ~ identical pairs -> 0 < spec_rmse pairs.
Proof.
  intros Hne Hdiff. unfold spec_rmse. apply sqrt_lt_R0.
  pose proof (sum_squares_nonneg (fun rp : R * R => fst rp - snd rp) pairs) as Hs.
  assert (Hnz : sum_R (map (fun rp => (fst rp - snd rp) * (fst rp - snd rp))
                           pairs) <> 0)
    by (intro Hz; apply Hdiff, sum_squares_zero, Hz).
  apply Rmult_lt_0_compat; [lra|].
  apply Rinv_0_lt_compat, INR_length_pos; assumption.
Qed.

(** ** Maximum and minimum *)

Lemma fold_left_Rmax_spec xs x :
  In (fold_left Rmax xs x) (x :: xs) /\
  Forall (fun y => y <= fold_left Rmax xs x) (x :: xs).
Proof.
  revert x; induction xs as [|y xs IH]; intro x; simpl.
  - split; [left; reflexivity | constructor; [lra | constructor]].
  - destruct (IH (Rmax x y)) as [Hin Hall].
    inversion Hall as [|? ? Hhead Htail]; subst.
    split.
    + destruct Hin as [Hin | Hin]; [|right; right; exact Hin].
      rewrite <- Hin.
      destruct (Rmax_case x y (fun m => m = x \/ m = y)) as [H | H]; auto.
    + pose proof (Rmax_l x y); pose proof (Rmax_r x y).
      constructor; [lra | constructor; [lra | assumption]].
Qed.

Lemma fold_left_Rmin_spec xs x :
  In (fold_left Rmin xs x) (x :: xs) /\
  Forall (fun y => fold_left Rmin xs x <= y) (x :: xs).
Proof.
  revert x; induction xs as [|y xs IH]; intro x; simpl.
  - split; [left; reflexivity | constructor; [lra | constructor]].
  - destruct (IH (Rmin x y)) as [Hin Hall].
    inversion Hall as [|? ? Hhead Htail]; subst.
    split.
    + destruct Hin as [Hin | Hin]; [|right; right; exact Hin].
      rewrite <- Hin.
      destruct (Rmin_case x y (fun m => m = x \/ m = y)) as [H | H]; auto.
    + pose proof (Rmin_l x y); pose proof (Rmin_r x y).
      constructor; [lra | constructor; [lra | assumption]].
Qed.

Lemma is_maximum_unique l m m' :
  is_maximum l m -> is_maximum l m' -> m = m'.
Proof.
  intros [Hin Hall] [Hin' Hall'].
  rewrite Forall_forall in Hall, Hall'.
  apply Rle_antisym; auto.
Qed.

Lemma is_minimum_unique l m m' :
  is_minimum l m -> is_minimum l m' -> m = m'.
Proof.
  intros [Hin Hall] [Hin' Hall'].
  rewrite Forall_forall in Hall, Hall'.
  apply Rle_antisym; auto.
Qed.

Lemma np_max_spec l : l <> [] -> exists m, np_max l = Ok m /\ is_maximum l m.
Proof.
  destruct l as [|x xs]; [congruence|]; intros _.
  exists (fold_left Rmax xs x); split; [reflexivity|].
  apply fold_left_Rmax_spec.
Qed.

Lemma np_min_spec l : l <> [] -> exists m, np_min l = Ok m /\ is_minimum l m.
Proof.
  destruct l as [|x xs]; [congruence|]; intros _.
  exists (fold_left Rmin xs x); split; [reflexivity|].
  apply fold_left_Rmin_spec.
Qed.

(** ** The normalisation factor *)

Lemma np_std_nonempty l :
  l <> [] ->
  np_std l = Finite (sqrt (arithmetic_mean
                             (map (fun x => (x - arithmetic_mean l)
                                            * (x - arithmetic_mean l)) l))).
Proof.
  intro H. unfold np_std, np_var.
  rewrite np_mean_nonempty by assumption.
  replace (map (fun x => (x - arithmetic_mean l) ^ 2) l)
    with (map (fun x => (x - arithmetic_mean l) * (x - arithmetic_mean l)) l)
    by (apply map_ext; intro; ring).
  rewrite np_mean_nonempty by (destruct l; [congruence | discriminate]).
  unfold np_sqrt; rewrite is_negative_false by apply mean_squares_nonneg.
  reflexivity.
Qed.

Lemma norm_factor_of_spec normalization refs nf :
  refs <> [] ->
  spec_norm_factor refs normalization nf ->
  norm_factor_of normalization refs = Ok (Finite nf).
Proof.
  intros Hne Hspec. unfold norm_factor_of.
  destruct Hspec as [mx mn Hmx Hmn | | ]; cbn [String.eqb Ascii.eqb Bool.eqb].
  - destruct (np_max_spec Hne) as (mx' & -> & Hmx').
    destruct (np_min_spec Hne) as (mn' & -> & Hmn').
    cbn [bind].
    rewrite (is_maximum_unique Hmx Hmx'), (is_minimum_unique Hmn Hmn').
    reflexivity.
  - rewrite np_mean_nonempty by assumption; reflexivity.
  - rewrite np_std_nonempty by assumption; reflexivity.
Qed.

Lemma spec_norm_factor_exists refs normalization :
  refs <> [] ->
  normalization = "range"%string \/ normalization = "mean"%string
  \/ normalization = "std"%string ->
  exists nf, spec_norm_factor refs normalization nf.
Proof.
  intros Hne [-> | [-> | ->]].
  - destruct (np_max_spec Hne) as (mx & _ & Hmx).
    destruct (np_min_spec Hne) as (mn & _ & Hmn).
    exists (mx - mn); constructor; assumption.
  - eexists; apply norm_mean.
  - eexists; apply norm_std.
Qed.

Lemma norm_factor_of_methods normalization refs nf :
  norm_factor_of normalization refs = Ok nf ->
  normalization = "range"%string \/ normalization = "mean"%string
  \/ normalization = "std"%string.
Proof.
  unfold norm_factor_of.
  destruct (String.eqb_spec normalization "range"); [auto|].
  destruct (String.eqb_spec normalization "mean"); [auto|].
  destruct (String.eqb_spec normalization "std"); [auto|].
  discriminate.
Qed.

Lemma norm_factor_of_invalid normalization refs :
  normalization <> "range"%string -> normalization <> "mean"%string ->
  normalization <> "std"%string ->
  norm_factor_of normalization refs
  = Raise (ValueError
             "Invalid normalization method. Choose 'range', 'mean', or 'std'.").
Proof.
  intros Hr Hm Hs. unfold norm_factor_of.
  apply String.eqb_neq in Hr, Hm, Hs. rewrite Hr, Hm, Hs; reflexivity.
Qed.

(** ** The comparator on arrays of one shape *)

Lemma compute_nrmse_unfold reference prediction normalization :
  same_shape reference prediction ->
  compute_nrmse reference prediction normalization =
  let pairs := spec_joint_pairs reference prediction in
  bind (norm_factor_of normalization (map fst pairs))
       (fun norm_factor =>
          Ok (fmul (fdiv (rmse_of (map fst pairs) (map snd pairs)) norm_factor)
                   (Finite 100))).
Proof.
  intro H. unfold compute_nrmse.
  rewrite (proj2 (same_shapeb_iff reference prediction) H).
  cbv zeta. rewrite ref_values_spec, pred_values_spec by assumption.
  reflexivity.
Qed.

Lemma compute_nrmse_value reference prediction normalization nf :
  same_shape reference prediction ->
  spec_joint_pairs reference prediction <> [] ->
  norm_factor_of normalization (map fst (spec_joint_pairs reference prediction))
  = Ok nf ->
  compute_nrmse reference prediction normalization
  = Ok (fmul (fdiv (Finite (spec_rmse (spec_joint_pairs reference prediction)))
                   nf)
             (Finite 100)).
Proof.
  intros Hshape Hne Hnf.
  rewrite compute_nrmse_unfold by assumption; cbv zeta.
  rewrite Hnf, rmse_of_pairs by assumption; reflexivity.
Qed.

Lemma compute_nrmse_empty reference prediction normalization :
  same_shape reference prediction ->
  spec_joint_pairs reference prediction = [] ->
  compute_nrmse reference prediction normalization
  = bind (norm_factor_of normalization [])
         (fun norm_factor => Ok (fmul (fdiv Masked norm_factor) (Finite 100))).
Proof.
  intros Hshape Hempty.
  rewrite compute_nrmse_unfold by assumption; cbv zeta.
  rewrite Hempty; cbn [map]; rewrite rmse_of_empty; reflexivity.
Qed.

(** ** The quotient and the percentage *)

Lemma percent_finite a b :
  b <> 0 -> fmul (fdiv (Finite a) (Finite b)) (Finite 100) = Finite (a / b * 100).
Proof. intro H; unfold fdiv; rewrite is_zero_false by assumption; reflexivity. Qed.

Lemma percent_zero_over_zero :
  fmul (fdiv (Finite 0) (Finite 0)) (Finite 100) = NaN.
Proof. unfold fdiv; rewrite !is_zero_true; reflexivity. Qed.

Lemma percent_positive_over_zero a :
  0 < a -> fmul (fdiv (Finite a) (Finite 0)) (Finite 100) = PosInf.
Proof.
  intro H; unfold fdiv.
  rewrite is_zero_true by reflexivity.
  rewrite is_zero_false, is_negative_false by lra.
  cbn [infinity fmul].
  rewrite is_zero_false, is_negative_false by lra; reflexivity.
Qed.

(** ** The loop of [process_nrmse] under an invalid method *)

Lemma compute_nrmse_invalid_raises reference prediction normalization :
  normalization <> "range"%string -> normalization <> "mean"%string ->
  normalization <> "std"%string ->
  exists e, compute_nrmse reference prediction normalization = Raise e.
Proof.
  intros Hr Hm Hs. unfold compute_nrmse.
  destruct (same_shapeb reference prediction); [|eauto].
  cbv zeta; rewrite norm_factor_of_invalid by assumption; cbn [bind]; eauto.
Qed.

Lemma process_predictions_invalid w folder var normalization ref_data :
  normalization <> "range"%string -> normalization <> "mean"%string ->
  normalization <> "std"%string ->
  forall files results rs,
    process_predictions w folder var normalization ref_data files results
    = Ok rs ->
    rs = results.
Proof.
  intros Hr Hm Hs.
  induction files as [|file files IH]; intros results rs H; simpl in H.
  - congruence.
  - destruct (negb (path_exists w (path_join folder file))).
    + apply IH; assumption.
    + destruct (compute_nrmse_invalid_raises ref_data
                  (resample_raster w (path_join folder file) ref_data)
                  Hr Hm Hs) as [e He].
      rewrite He in H; discriminate.
Qed.

End NRMSEFacts.

(* ================================================================== *)
(** * The error comparator against the specification *)
(* ================================================================== *)

Module NRMSESpec.
Import Numpy NumpyFacts NRMSE NRMSEFacts.
Local Open Scope R_scope.

(** C2. For every pair of masked arrays of one shape with at least one
    jointly valid pixel, [compute_nrmse] returns
    (RMSE / normalization_factor) x 100, where RMSE is the square root
    of the mean of the squared differences over the jointly valid pixels
    and the factor is taken over the reference values there: max - min
    for 'range', the arithmetic mean for 'mean', the population standard
    deviation for 'std'. *)
Theorem compute_nrmse_formula reference prediction normalization :
  same_shape reference prediction ->
  spec_joint_pairs reference prediction <> [] ->
  normalization = "range"%string \/ normalization = "mean"%string
  \/ normalization = "std"%string ->
  exists nf,
    spec_norm_factor (map fst (spec_joint_pairs reference prediction))
                     normalization nf /\
    compute_nrmse reference prediction normalization
    = Ok (fmul (fdiv (Finite (spec_rmse (spec_joint_pairs reference prediction)))
                     (Finite nf))
               (Finite 100)) /\
    (nf <> 0 ->
     compute_nrmse reference prediction normalization
     = Ok (Finite (spec_rmse (spec_joint_pairs reference prediction) / nf * 100))).
Proof.
  intros Hshape Hne Hmethod.
  assert (Hrefs : map fst (spec_joint_pairs reference prediction) <> [])
    by (destruct (spec_joint_pairs reference prediction);
        [congruence | discriminate]).
  destruct (spec_norm_factor_exists Hrefs Hmethod) as [nf Hspec].
  exists nf; split; [exact Hspec|].
  pose proof (norm_factor_of_spec Hrefs Hspec) as Hnf.
  rewrite (compute_nrmse_value _ Hshape Hne Hnf).
  split; [reflexivity|].
  intro Hnz; rewrite percent_finite by assumption; reflexivity.
Qed.

Lemma compute_nrmse_formula_witness :
  same_shape ref_patch pred_patch /\
  spec_joint_pairs ref_patch pred_patch <> [] /\
  exists nf,
    spec_norm_factor (map fst (spec_joint_pairs ref_patch pred_patch))
                     "range" nf /\
    compute_nrmse ref_patch pred_patch "range"
    = Ok (fmul (fdiv (Finite (spec_rmse (spec_joint_pairs ref_patch pred_patch)))
                     (Finite nf))
               (Finite 100)).
Proof.
  assert (Hshape : same_shape ref_patch pred_patch) by (repeat constructor).
  assert (Hne : spec_joint_pairs ref_patch pred_patch <> []) by discriminate.
  split; [exact Hshape|]. split; [exact Hne|].
  destruct (@compute_nrmse_formula ref_patch pred_patch "range"%string
              Hshape Hne (or_introl eq_refl)) as (nf & Hspec & Hvalue & _).
  exists nf; split; [exact Hspec | exact Hvalue].
Defined.

(** C5, as the specification states it, fails twice. Under 'mean'
    normalisation a reference of negative mean gives a negative result;
    and identical constant arrays under 'range' give 0 / 0, a NaN, not
    0. *)
Lemma nrmse_nonneg_counterexample :
  (spec_joint_pairs ref_negative pred_zero <> [] /\
   compute_nrmse ref_negative pred_zero "mean" = Ok (Finite (-100)) /\
   -100 < 0) /\
  (spec_joint_pairs ref_constant ref_constant <> [] /\
   identical (spec_joint_pairs ref_constant ref_constant) /\
   compute_nrmse ref_constant ref_constant "range" = Ok NaN).
Proof.
  split.
  - split; [discriminate|]. split; [|lra].
    assert (Hshape : same_shape ref_negative pred_zero) by (repeat constructor).
    rewrite (@compute_nrmse_value ref_negative pred_zero "mean"%string
               (np_mean [-1]) Hshape); [|discriminate|reflexivity].
    change (spec_joint_pairs ref_negative pred_zero) with [(-1, 0)].
    rewrite np_mean_nonempty by discriminate.
    assert (Hmean : arithmetic_mean [-1] = -1)
      by (unfold arithmetic_mean; simpl; field).
    assert (Hrmse : spec_rmse [(-1, 0)] = 1).
    { unfold spec_rmse; simpl.
      replace (((-1 - 0) * (-1 - 0) + 0) / 1) with 1 by field.
      apply sqrt_1. }
    rewrite Hmean, Hrmse, percent_finite by lra.
    do 2 f_equal; field.
  - assert (Hid : identical (spec_joint_pairs ref_constant ref_constant))
      by (repeat constructor).
    split; [discriminate|]. split; [exact Hid|].
    assert (Hshape : same_shape ref_constant ref_constant)
      by (repeat constructor).
    rewrite (@compute_nrmse_value ref_constant ref_constant "range"%string
               (Finite (Rmax 5 5 - Rmin 5 5)) Hshape);
      [|discriminate|reflexivity].
    rewrite (spec_rmse_identical Hid).
    rewrite Rmax_left, Rmin_left by lra.
    replace (5 - 5) with 0 by ring.
    rewrite percent_zero_over_zero; reflexivity.
Qed.

(** C5, amended. For all inputs of one shape with a non-empty
    joint-valid mask and a method among 'range', 'mean', 'std' with
    normalisation factor nf: when nf > 0, [compute_nrmse] returns a
    finite non-negative value; when nf is not 0, it returns exactly 0
    whenever reference and prediction are identical over the joint-valid
    mask. *)
Theorem nrmse_nonneg_positive_factor reference prediction normalization nf :
  same_shape reference prediction ->
  spec_joint_pairs reference prediction <> [] ->
  norm_factor_of normalization (ref_values reference prediction)
  = Ok (Finite nf) ->
  (0 < nf ->
   exists v, compute_nrmse reference prediction normalization = Ok (Finite v)
             /\ 0 <= v) /\
  (nf <> 0 ->
   identical (spec_joint_pairs reference prediction) ->
   compute_nrmse reference prediction normalization = Ok (Finite 0)).
Proof.
  intros Hshape Hne Hnf.
  rewrite ref_values_spec in Hnf by assumption.
  rewrite (compute_nrmse_value _ Hshape Hne Hnf).
  split.
  - intro Hpos. rewrite percent_finite by lra.
    eexists; split; [reflexivity|].
    pose proof (spec_rmse_nonneg (spec_joint_pairs reference prediction)).
    apply Rmult_le_pos; [|lra].
    apply Rmult_le_pos; [assumption|].
    apply Rlt_le, Rinv_0_lt_compat; assumption.
  - intros Hnz Hid. rewrite percent_finite by assumption.
    rewrite (spec_rmse_identical Hid). do 2 f_equal; field; assumption.
Qed.

Lemma nrmse_nonneg_positive_factor_witness :
  same_shape ref_patch pred_patch /\
  spec_joint_pairs ref_patch pred_patch <> [] /\
  norm_factor_of "mean" (ref_values ref_patch pred_patch)
  = Ok (Finite (arithmetic_mean [1; 3])) /\
  0 < arithmetic_mean [1; 3] /\
  exists v, compute_nrmse ref_patch pred_patch "mean" = Ok (Finite v)
            /\ 0 <= v.
Proof.
  assert (Hshape : same_shape ref_patch pred_patch) by (repeat constructor).
  assert (Hne : spec_joint_pairs ref_patch pred_patch <> []) by discriminate.
  assert (Hnf : norm_factor_of "mean" (ref_values ref_patch pred_patch)
                = Ok (Finite (arithmetic_mean [1; 3]))).
  { change (norm_factor_of "mean" (ref_values ref_patch pred_patch))
      with (Ok (np_mean [1; 3])).
    rewrite np_mean_nonempty by discriminate; reflexivity. }
  assert (Hpos : 0 < arithmetic_mean [1; 3])
    by (unfold arithmetic_mean; simpl; lra).
  split; [exact Hshape|]. split; [exact Hne|]. split; [exact Hnf|].
  split; [exact Hpos|].
  exact (proj1 (@nrmse_nonneg_positive_factor ref_patch pred_patch
                  "mean"%string _ Hshape Hne Hnf) Hpos).
Defined.




Lemma range_of_constant :
  norm_factor_of "range" (ref_values ref_constant pred_off) = Ok (Finite 0).
Proof.
  change (norm_factor_of "range" (ref_values ref_constant pred_off))
    with (Ok (Finite (Rmax 5 5 - Rmin 5 5))).
  rewrite Rmax_left, Rmin_left by lra.
  do 2 f_equal; ring.
Qed.

Lemma patch_differs : ~ identical (spec_joint_pairs ref_constant pred_off).
Proof.
  change (spec_joint_pairs ref_constant pred_off) with [(5, 5); (5, 7)].
  intro H; inversion H as [|? ? _ Htail]; subst.
  inversion Htail as [|? ? Hneq _]; subst.
  simpl in Hneq; lra.
Qed.

(** C7, as the specification states it, fails: a constant reference
    field under 'range' normalisation has factor 0, and against a
    prediction that differs [compute_nrmse] returns +infinity, it raises
    nothing. *)
Lemma zero_factor_counterexample :
  spec_joint_pairs ref_constant pred_off <> [] /\
  norm_factor_of "range" (ref_values ref_constant pred_off) = Ok (Finite 0) /\
  compute_nrmse ref_constant pred_off "range" = Ok PosInf.
Proof.
  split; [discriminate|]. split; [apply range_of_constant|].
  assert (Hshape : same_shape ref_constant pred_off) by (repeat constructor).
  pose proof range_of_constant as Hnf.
  rewrite ref_values_spec in Hnf by assumption.
  rewrite (@compute_nrmse_value ref_constant pred_off "range"%string
             (Finite 0) Hshape); [|discriminate|assumption].
  rewrite percent_positive_over_zero; [reflexivity|].
  apply spec_rmse_positive; [discriminate | apply patch_differs].
Qed.

(** C7, amended. If the normalisation factor over the joint-valid
    reference values is exactly 0, [compute_nrmse] raises no error: it
    returns the quotient of the division by zero, NaN when reference and
    prediction are identical over the joint-valid mask (0 / 0) and
    +infinity otherwise. *)
Theorem zero_factor_returns_special reference prediction normalization :
  same_shape reference prediction ->
  spec_joint_pairs reference prediction <> [] ->
  norm_factor_of normalization (ref_values reference prediction)
  = Ok (Finite 0) ->
  (identical (spec_joint_pairs reference prediction) ->
   compute_nrmse reference prediction normalization = Ok NaN) /\
  (~ identical (spec_joint_pairs reference prediction) ->
   compute_nrmse reference prediction normalization = Ok PosInf).
Proof.
  intros Hshape Hne Hnf.
  rewrite ref_values_spec in Hnf by assumption.
  rewrite (compute_nrmse_value _ Hshape Hne Hnf).
  split.
  - intro Hid. rewrite (spec_rmse_identical Hid), percent_zero_over_zero.
    reflexivity.
  - intro Hdiff. rewrite percent_positive_over_zero; [reflexivity|].
    apply spec_rmse_positive; assumption.
Qed.

Lemma zero_factor_returns_special_witness :
  same_shape ref_constant pred_off /\
  spec_joint_pairs ref_constant pred_off <> [] /\
  norm_factor_of "range" (ref_values ref_constant pred_off) = Ok (Finite 0) /\
  compute_nrmse ref_constant pred_off "range" = Ok PosInf.
Proof.
  assert (Hshape : same_shape ref_constant pred_off) by (repeat constructor).
  assert (Hne : spec_joint_pairs ref_constant pred_off <> []) by discriminate.
  split; [exact Hshape|]. split; [exact Hne|].
  split; [exact range_of_constant|].
  exact (proj2 (@zero_factor_returns_special ref_constant pred_off
                  "range"%string Hshape Hne range_of_constant) patch_differs).
Defined.

(** C8. For every normalisation method other than 'range', 'mean' and
    'std', [compute_nrmse] on arrays of one shape raises the ValueError
    of the configuration check, and [process_nrmse] emits no record: it
    returns the empty list when no prediction file exists and fails
    otherwise. *)
Theorem invalid_method_raises normalization :
  normalization <> "range"%string ->
  normalization <> "mean"%string ->
  normalization <> "std"%string ->
  (forall reference prediction,
      same_shape reference prediction ->
      compute_nrmse reference prediction normalization
      = Raise (ValueError
          "Invalid normalization method. Choose 'range', 'mean', or 'std'.")) /\
  (forall w data_folder variable_name records,
      process_nrmse w data_folder variable_name normalization = Ok records ->
      records = []).
Proof.
  intros Hr Hm Hs; split.
  - intros reference prediction Hshape.
    rewrite compute_nrmse_unfold by assumption; cbv zeta.
    rewrite norm_factor_of_invalid by assumption; reflexivity.
  - intros w data_folder variable_name records. unfold process_nrmse; cbv zeta.
    destruct (negb (path_exists w _)); [congruence|].
    apply process_predictions_invalid; assumption.
Qed.

Lemma invalid_method_raises_witness :
  "invalid"%string <> "range"%string /\
  "invalid"%string <> "mean"%string /\
  "invalid"%string <> "std"%string /\
  compute_nrmse ref_patch pred_patch "invalid"
  = Raise (ValueError
      "Invalid normalization method. Choose 'range', 'mean', or 'std'.").
Proof.
  assert (Hr : "invalid"%string <> "range"%string)
    by (apply String.eqb_neq; reflexivity).
  assert (Hm : "invalid"%string <> "mean"%string)
    by (apply String.eqb_neq; reflexivity).
  assert (Hs : "invalid"%string <> "std"%string)
    by (apply String.eqb_neq; reflexivity).
  split; [exact Hr|]. split; [exact Hm|]. split; [exact Hs|].
  apply (proj1 (@invalid_method_raises "invalid"%string Hr Hm Hs)).
  repeat constructor.
Defined.

(** Scenario D, through the batch loop: with every file present the
    first comparison fails and nothing is returned. *)
Example scenario_invalid_method :
  process_nrmse (all_files ref_patch) "NRMSE/depth" "depth" "invalid"
  = Raise (ValueError
      "Invalid normalization method. Choose 'range', 'mean', or 'std'.").
Proof.
  unfold process_nrmse; cbv zeta.
  cbn [all_files path_exists read_masked resample_raster negb
       process_predictions].
  unfold compute_nrmse.
  rewrite (proj2 (same_shapeb_iff ref_patch ref_patch))
    by apply same_shape_refl.
  reflexivity.
Qed.

(** Scenario C: sixteen samples of range 100, one pixel off by 10. *)
Example scenario_one_pixel_off :
  compute_nrmse ref_4x4 pred_4x4 "range" = Ok (Finite (5 / 2)).
Proof.
  assert (Hshape : same_shape ref_4x4 pred_4x4) by (repeat constructor).
  assert (Hspec : spec_norm_factor
                    (map fst (spec_joint_pairs ref_4x4 pred_4x4))
                    "range" (100 - 0)).
  { apply norm_range; split;
      try (cbn; tauto);
      repeat (constructor; [cbn; lra|]); constructor. }
  rewrite (@compute_nrmse_value ref_4x4 pred_4x4 "range"%string
             (Finite (100 - 0)) Hshape);
    [|discriminate|apply norm_factor_of_spec; [discriminate|exact Hspec]].
  rewrite percent_finite by lra.
  assert (Hrmse : spec_rmse (spec_joint_pairs ref_4x4 pred_4x4) = 5 / 2).
  { unfold spec_rmse; cbn [spec_joint_pairs ref_4x4 pred_4x4 ravel concat app
      combine filter jointly_valid cell fst snd negb andb map sum_R fold_right
      length INR].
    match goal with |- sqrt ?x = _ => replace x with (5 / 2 * (5 / 2)) by field end.
    apply sqrt_square; lra. }
  rewrite Hrmse; do 2 f_equal; field.
Qed.

End NRMSESpec.

(* ================================================================== *)
(** * Further properties of the classification comparator *)
(* ================================================================== *)

Module DetectorExtra.
Import Numpy NumpyFacts Inundation_detector DetectorFacts.

(** ** Fusing element-wise operations *)

Lemma map2_ext {A B C : Type} (f g : A -> B -> C) xs ys :
  (forall x y, f x y = g x y) -> map2 f xs ys = map2 g xs ys.
Proof.
  intro H; revert ys; induction xs as [|x xs IH]; intros [|y ys]; simpl;
    try reflexivity.
  rewrite H, IH; reflexivity.
Qed.

Lemma map2_map_map {A A' B B' C : Type} (f : A' -> B' -> C)
      (g : A -> A') (h : B -> B') xs ys :
  map2 f (map g xs) (map h ys) = map2 (fun x y => f (g x) (h y)) xs ys.
Proof.
  revert ys; induction xs as [|x xs IH]; intros [|y ys]; simpl;
    try reflexivity.
  rewrite IH; reflexivity.
Qed.

Lemma map2_map2_both {A B C D E : Type} (f : C -> D -> E)
      (g : A -> B -> C) (h : A -> B -> D) xs ys :
  map2 f (map2 g xs ys) (map2 h xs ys)
  = map2 (fun x y => f (g x y) (h x y)) xs ys.
Proof.
  revert ys; induction xs as [|x xs IH]; intros [|y ys]; simpl;
    try reflexivity.
  rewrite IH; reflexivity.
Qed.

Lemma map_map2 {A B C D : Type} (k : C -> D) (f : A -> B -> C) xs ys :
  map k (map2 f xs ys) = map2 (fun x y => k (f x y)) xs ys.
Proof.
  revert ys; induction xs as [|x xs IH]; intros [|y ys]; simpl;
    try reflexivity.
  rewrite IH; reflexivity.
Qed.

Lemma map2_diag {A C : Type} (f : A -> A -> C) xs :
  map2 f xs xs = map (fun x => f x x) xs.
Proof. induction xs as [|x xs IH]; simpl; [|rewrite IH]; reflexivity. Qed.

Lemma np_map2_ext {A B C : Type} (f g : A -> B -> C) a b :
  (forall x y, f x y = g x y) -> np_map2 f a b = np_map2 g a b.
Proof.
  intro H; unfold np_map2. apply map2_ext.
  intros r s; apply map2_ext; assumption.
Qed.

Lemma np_map2_map_map {A A' B B' C : Type} (f : A' -> B' -> C)
      (g : A -> A') (h : B -> B') a b :
  np_map2 f (np_map g a) (np_map h b)
  = np_map2 (fun x y => f (g x) (h y)) a b.
Proof.
  unfold np_map2, np_map. rewrite map2_map_map.
  apply map2_ext; intros r s; apply map2_map_map.
Qed.

Lemma np_map2_map2_both {A B C D E : Type} (f : C -> D -> E)
      (g : A -> B -> C) (h : A -> B -> D) a b :
  np_map2 f (np_map2 g a b) (np_map2 h a b)
  = np_map2 (fun x y => f (g x y) (h x y)) a b.
Proof.
  unfold np_map2. rewrite map2_map2_both.
  apply map2_ext; intros r s; apply map2_map2_both.
Qed.

Lemma map2_map_map2 {A B C D E : Type} (f : C -> D -> E)
      (g : A -> C) (h : A -> B -> D) xs ys :
  map2 f (map g xs) (map2 h xs ys) = map2 (fun x y => f (g x) (h x y)) xs ys.
Proof.
  revert ys; induction xs as [|x xs IH]; intros [|y ys]; simpl;
    try reflexivity.
  rewrite IH; reflexivity.
Qed.

Lemma np_map2_map_map2 {A B C D E : Type} (f : C -> D -> E)
      (g : A -> C) (h : A -> B -> D) a b :
  np_map2 f (np_map g a) (np_map2 h a b)
  = np_map2 (fun x y => f (g x) (h x y)) a b.
Proof.
  unfold np_map2, np_map. rewrite map2_map_map2.
  apply map2_ext; intros r s; apply map2_map_map2.
Qed.

Lemma np_map_map2 {A B C D : Type} (k : C -> D) (f : A -> B -> C) a b :
  np_map k (np_map2 f a b) = np_map2 (fun x y => k (f x y)) a b.
Proof.
  unfold np_map2, np_map. rewrite map_map2.
  apply map2_ext; intros r s; apply map_map2.
Qed.

Lemma np_map2_diag {A C : Type} (f : A -> A -> C) a :
  np_map2 f a a = np_map (fun x => f x x) a.
Proof.
  unfold np_map2, np_map. rewrite map2_diag.
  apply map_ext; intro r; apply map2_diag.
Qed.

Lemma map2_const_l {A B C : Type} (h : A -> C) (xs : list A) (ys : list B) :
  length xs = length ys -> map2 (fun x _ => h x) xs ys = map h xs.
Proof.
  revert ys; induction xs as [|x xs IH]; intros [|y ys] H; simpl in *;
    try discriminate; [reflexivity|].
  rewrite IH by congruence; reflexivity.
Qed.

Lemma map2_const_r {A B C : Type} (h : B -> C) (xs : list A) (ys : list B) :
  length xs = length ys -> map2 (fun _ y => h y) xs ys = map h ys.
Proof.
  revert ys; induction xs as [|x xs IH]; intros [|y ys] H; simpl in *;
    try discriminate; [reflexivity|].
  rewrite IH by congruence; reflexivity.
Qed.

Lemma np_map2_const_r {A B C : Type} (h : B -> C) (a : ndarray A) (b : ndarray B) :
  same_shape a b -> np_map2 (fun _ y => h y) a b = np_map h b.
Proof.
  unfold np_map2, np_map.
  induction 1 as [|r s a b Hrs Hshape IH]; [reflexivity|].
  simpl; rewrite IH, map2_const_r by assumption; reflexivity.
Qed.

(** ** The masks and the raster as one element-wise operation *)

Lemma valid_mask_pointwise ref pred pv :
  valid_mask ref pred pv
  = np_map2 (fun r p => pixel_eqb r pv && pixel_eqb p pv) ref pred.
Proof. apply np_map2_map_map. Qed.

Lemma false_negatives_pointwise ref pred pv :
  false_negatives ref pred pv
  = np_map2 (fun r p => pixel_eqb r pv && negb (pixel_eqb p pv)) ref pred.
Proof. apply np_map2_map_map. Qed.

Lemma false_positives_pointwise ref pred pv :
  false_positives ref pred pv
  = np_map2 (fun r p => negb (pixel_eqb r pv) && pixel_eqb p pv) ref pred.
Proof. apply np_map2_map_map. Qed.

Lemma classification_pointwise ref pred pv :
  classification ref pred pv
  = np_map2 (fun r p => written r p pv) ref pred.
Proof.
  unfold classification, setitem_mask, np_full_like; cbv zeta.
  rewrite valid_mask_pointwise, false_negatives_pointwise,
    false_positives_pointwise.
  rewrite np_map2_map_map2, !np_map2_map2_both.
  apply np_map2_ext; intros r p; unfold written.
  destruct (pixel_eqb r pv), (pixel_eqb p pv); reflexivity.
Qed.

(** ** Counting *)

Lemma count_true_map2_add {A B : Type} (f g h : A -> B -> bool) xs ys :
  (forall x y, (Z.b2z (f x y) + Z.b2z (g x y) = Z.b2z (h x y))%Z) ->
  (count_true (map2 f xs ys) + count_true (map2 g xs ys)
   = count_true (map2 h xs ys))%Z.
Proof.
  intro H; revert ys; induction xs as [|x xs IH]; intros [|y ys];
    try reflexivity.
  cbn [map2]; rewrite !count_true_cons.
  specialize (IH ys); specialize (H x y); lia.
Qed.

Lemma np_sum_map2_add {A B : Type} (f g h : A -> B -> bool) a b :
  (forall x y, (Z.b2z (f x y) + Z.b2z (g x y) = Z.b2z (h x y))%Z) ->
  (np_sum (np_map2 f a b) + np_sum (np_map2 g a b)
   = np_sum (np_map2 h a b))%Z.
Proof.
  intro H; unfold np_map2; revert b;
    induction a as [|r a IH]; intros [|s b]; try reflexivity.
  cbn [map2]; rewrite !np_sum_cons.
  specialize (IH b); pose proof (count_true_map2_add f g h r s H); lia.
Qed.

Lemma count_true_all {A B : Type} (f : A -> B -> bool) xs ys :
  (forall x y, f x y = true) -> length xs = length ys ->
  count_true (map2 f xs ys) = Z.of_nat (length xs).
Proof.
  intro H; revert ys; induction xs as [|x xs IH]; intros [|y ys] Hlen;
    simpl in Hlen; try discriminate; [reflexivity|].
  cbn [map2 length]; rewrite count_true_cons, H, IH by congruence.
  simpl Z.b2z; lia.
Qed.

Lemma size_cons {A : Type} (r : list A) (a : ndarray A) :
  size (r :: a) = (Z.of_nat (length r) + size a)%Z.
Proof. unfold size, ravel; simpl; rewrite length_app; lia. Qed.

Lemma np_sum_all {A B : Type} (f : A -> B -> bool) a b :
  (forall x y, f x y = true) -> same_shape a b ->
  np_sum (np_map2 f a b) = size a.
Proof.
  intros H Hshape; unfold np_map2.
  induction Hshape as [|r s a b Hrs Hshape IH]; [reflexivity|].
  cbn [map2]; rewrite np_sum_cons, size_cons, IH, count_true_all by assumption.
  reflexivity.
Qed.

Lemma np_map_map {A B C : Type} (f : A -> B) (g : B -> C) (a : ndarray A) :
  np_map g (np_map f a) = np_map (fun x => g (f x)) a.
Proof.
  unfold np_map; rewrite map_map; apply map_ext; intro r; apply map_map.
Qed.

Lemma count_true_none {A : Type} (f : A -> bool) (r : list A) :
  (forall x, f x = false) -> count_true (map f r) = 0%Z.
Proof.
  intro H; induction r as [|x r IH]; [reflexivity|].
  cbn [map]; rewrite count_true_cons, H, IH; reflexivity.
Qed.

Lemma np_sum_none {A : Type} (f : A -> bool) (a : ndarray A) :
  (forall x, f x = false) -> np_sum (np_map f a) = 0%Z.
Proof.
  intro H; unfold np_map.
  induction a as [|r a IH]; [reflexivity|].
  cbn [map]; rewrite np_sum_cons, IH, count_true_none by assumption.
  reflexivity.
Qed.

Lemma np_sum_and_invert_r m :
  np_sum (np_logical_and m (np_invert m)) = 0%Z.
Proof.
  unfold np_logical_and, np_invert, np_map2, np_map.
  induction m as [|r m IH]; [reflexivity|].
  cbn [map map2]; rewrite np_sum_cons, IH.
  clear IH; induction r as [|b r IHr]; [reflexivity|].
  cbn [map map2]; rewrite count_true_cons.
  destruct b; simpl Z.b2z; lia.
Qed.

Lemma np_sum_and_invert_l m :
  np_sum (np_logical_and (np_invert m) m) = 0%Z.
Proof.
  unfold np_logical_and, np_invert, np_map2, np_map.
  induction m as [|r m IH]; [reflexivity|].
  cbn [map map2]; rewrite np_sum_cons, IH.
  clear IH; induction r as [|b r IHr]; [reflexivity|].
  cbn [map map2]; rewrite count_true_cons.
  destruct b; simpl Z.b2z; lia.
Qed.

Lemma np_ne_invert a v : np_ne a v = np_invert (np_eq a v).
Proof. unfold np_ne, np_invert, np_eq; rewrite np_map_map; reflexivity. Qed.

(** ** Reading the destination of [reproject] *)

Lemma nth_error_map_seq {B : Type} (w : nat -> B) n : forall s j,
  nth_error (map w (seq s n)) j
  = if (j <? n)%nat then Some (w (s + j)%nat) else None.
Proof.
  induction n as [|n IH]; intros s [|j]; simpl; try reflexivity.
  - rewrite Nat.add_0_r; reflexivity.
  - rewrite IH. change (S j <? S n)%nat with (j <? n)%nat.
    rewrite Nat.add_succ_r; reflexivity.
Qed.

Lemma getitem_reproject_like {A B : Type} (like : ndarray A)
      (warp : nat -> nat -> B) i j :
  getitem (reproject_like like warp) i j
  = option_map (fun _ => warp i j) (getitem like i j).
Proof.
  unfold reproject_like, getitem.
  change (warp i j) with (warp (0 + i)%nat j).
  generalize 0%nat as k.
  revert i; induction like as [|row like IH]; intros [|i] k; simpl;
    try reflexivity.
  - unfold fill_row. rewrite nth_error_map_seq, Nat.add_0_r. simpl.
    destruct (nth_error row j) eqn:Hj.
    + assert (j < length row)%nat
        by (apply nth_error_Some; congruence).
      apply Nat.ltb_lt in H; rewrite H; reflexivity.
    + apply nth_error_None in Hj.
      apply Nat.ltb_ge in Hj; rewrite Hj; reflexivity.
  - rewrite IH, Nat.add_succ_r; reflexivity.
Qed.

(** ** The file name of a prediction *)

Lemma rfind_succ_absent c s : occurs c s = false -> rfind_succ c s = 0%nat.
Proof.
  induction s as [|a s IH]; simpl; [reflexivity|].
  intro H; apply orb_false_iff in H; destruct H as [Ha Hs].
  rewrite IH, Ha by assumption; reflexivity.
Qed.

Lemma rfind_succ_last c dir s :
  occurs c s = false ->
  rfind_succ c (dir ++ String c s) = S (String.length dir).
Proof.
  intro H; induction dir as [|a dir IH]; simpl.
  - rewrite rfind_succ_absent, Ascii.eqb_refl by assumption; reflexivity.
  - rewrite IH; reflexivity.
Qed.

Lemma string_drop_app dir a s :
  string_drop (S (String.length dir)) (dir ++ String a s) = s.
Proof. induction dir as [|b dir IH]; simpl; [reflexivity | exact IH]. Qed.

Lemma basename_of_join dir name :
  occurs "/" name = false -> basename (dir ++ String "/" name) = name.
Proof.
  intro H; unfold basename.
  rewrite rfind_succ_last by assumption; apply string_drop_app.
Qed.

Lemma basename_plain name : occurs "/" name = false -> basename name = name.
Proof. intro H; unfold basename; rewrite rfind_succ_absent by assumption; reflexivity. Qed.

Lemma basename_no_slash p : occurs "/" (basename p) = false.
Proof.
  unfold basename; induction p as [|a p IH]; [reflexivity|].
  simpl rfind_succ.
  destruct (rfind_succ "/" p) as [|k] eqn:Hk.
  - simpl in IH.
    destruct (Ascii.eqb a "/") eqn:Ha; simpl; [exact IH|].
    rewrite Ha; exact IH.
  - simpl; exact IH.
Qed.

Lemma before_dot_stem stem ext :
  occurs "." stem = false -> before_dot (stem ++ String "." ext) = stem.
Proof.
  induction stem as [|a stem IH]; simpl; [reflexivity|].
  intro H; apply orb_false_iff in H; destruct H as [Ha Hs].
  rewrite Ha, IH by assumption; reflexivity.
Qed.

Lemma before_dot_no_dot s : occurs "." (before_dot s) = false.
Proof.
  induction s as [|a s IH]; [reflexivity|]; simpl.
  destruct (Ascii.eqb a ".") eqn:Ha; simpl; [reflexivity|].
  rewrite Ha; exact IH.
Qed.

Lemma before_dot_keeps_absent c s :
  occurs c s = false -> occurs c (before_dot s) = false.
Proof.
  induction s as [|a s IH]; [reflexivity|]; simpl.
  intro H; apply orb_false_iff in H; destruct H as [Ha Hs].
  destruct (Ascii.eqb a "."); simpl; [reflexivity|].
  rewrite Ha, IH by assumption; reflexivity.
Qed.

Lemma occurs_app c s t : occurs c (s ++ t) = occurs c s || occurs c t.
Proof.
  induction s as [|a s IH]; simpl; [reflexivity|].
  rewrite IH, orb_assoc; reflexivity.
Qed.

(** ** Properties *)

(** X1. The true-positive and false-positive counts of a statistics row add
    up to the number of prediction pixels equal to the positive value:
    the counterpart, on the prediction, of the reference total. *)
Theorem tp_fp_count_prediction ref pred pv total area res :
  same_shape ref pred ->
  (True_Positives (stats_entry ref pv total area res pred)
   + False_Positives (stats_entry ref pv total area res pred)
   = np_sum (np_eq pred pv))%Z.
Proof.
  intro Hshape. cbn [stats_entry True_Positives False_Positives].
  rewrite valid_mask_pointwise, false_positives_pointwise.
  rewrite (np_sum_map2_add _ _ (fun _ p => pixel_eqb p pv)).
  - unfold np_eq; rewrite np_map2_const_r by assumption; reflexivity.
  - intros r p; destruct (pixel_eqb r pv), (pixel_eqb p pv); reflexivity.
Qed.

Lemma tp_fp_count_prediction_witness :
  same_shape ref_2x2 pred_2x2 /\
  (True_Positives (stats_entry ref_2x2 INUNDATED_VALUE 2 100 "prediction_15m" pred_2x2)
   + False_Positives (stats_entry ref_2x2 INUNDATED_VALUE 2 100 "prediction_15m" pred_2x2)
   = np_sum (np_eq pred_2x2 INUNDATED_VALUE))%Z.
Proof.
  assert (Hshape : same_shape ref_2x2 pred_2x2) by (repeat constructor).
  split; [exact Hshape|].
  exact (@tp_fp_count_prediction ref_2x2 pred_2x2 INUNDATED_VALUE
           2%Z 100%Q "prediction_15m"%string Hshape).
Defined.

(** X2. The classification raster and the statistics agree: the raster holds
    the value 1 at exactly tp_count pixels, 2 at fn_count pixels, 3 at
    fp_count pixels, and the fill value 255 at all the others. *)
Theorem raster_counts_match_statistics ref pred pv total area res :
  same_shape ref pred ->
  count_label (classification ref pred pv) 1
  = True_Positives (stats_entry ref pv total area res pred) /\
  count_label (classification ref pred pv) 2
  = False_Negatives (stats_entry ref pv total area res pred) /\
  count_label (classification ref pred pv) 3
  = False_Positives (stats_entry ref pv total area res pred) /\
  (count_label (classification ref pred pv) NODATA_CLASS
   = size ref
     - True_Positives (stats_entry ref pv total area res pred)
     - False_Negatives (stats_entry ref pv total area res pred)
     - False_Positives (stats_entry ref pv total area res pred))%Z.
Proof.
  intro Hshape.
  cbn [stats_entry True_Positives False_Negatives False_Positives].
  unfold count_label.
  rewrite classification_pointwise, !np_map_map2.
  rewrite valid_mask_pointwise, false_negatives_pointwise,
    false_positives_pointwise.
  assert (H1 : np_map2 (fun r p => (1 =? written r p pv)%Z) ref pred
               = np_map2 (fun r p => pixel_eqb r pv && pixel_eqb p pv) ref pred)
    by (apply np_map2_ext; intros r p; unfold written;
        destruct (pixel_eqb r pv), (pixel_eqb p pv); reflexivity).
  assert (H2 : np_map2 (fun r p => (2 =? written r p pv)%Z) ref pred
               = np_map2 (fun r p => pixel_eqb r pv && negb (pixel_eqb p pv))
                         ref pred)
    by (apply np_map2_ext; intros r p; unfold written;
        destruct (pixel_eqb r pv), (pixel_eqb p pv); reflexivity).
  assert (H3 : np_map2 (fun r p => (3 =? written r p pv)%Z) ref pred
               = np_map2 (fun r p => negb (pixel_eqb r pv) && pixel_eqb p pv)
                         ref pred)
    by (apply np_map2_ext; intros r p; unfold written;
        destruct (pixel_eqb r pv), (pixel_eqb p pv); reflexivity).
  assert (H4 : np_map2 (fun r p => (NODATA_CLASS =? written r p pv)%Z) ref pred
               = np_map2 (fun r p => negb (pixel_eqb r pv)
                                     && negb (pixel_eqb p pv)) ref pred)
    by (apply np_map2_ext; intros r p; unfold written;
        destruct (pixel_eqb r pv), (pixel_eqb p pv); reflexivity).
  rewrite H1, H2, H3, H4.
  repeat split.
  pose proof (np_sum_map2_add
                (fun r p => pixel_eqb r pv && pixel_eqb p pv)
                (fun r p => pixel_eqb r pv && negb (pixel_eqb p pv))
                (fun r (_ : pixel) => pixel_eqb r pv) ref pred) as Hpos.
  pose proof (np_sum_map2_add
                (fun r p => negb (pixel_eqb r pv) && pixel_eqb p pv)
                (fun r p => negb (pixel_eqb r pv) && negb (pixel_eqb p pv))
                (fun r (_ : pixel) => negb (pixel_eqb r pv)) ref pred) as Hneg.
  pose proof (np_sum_map2_add
                (fun r (_ : pixel) => pixel_eqb r pv)
                (fun r (_ : pixel) => negb (pixel_eqb r pv))
                (fun (_ _ : pixel) => true) ref pred) as Hall.
  rewrite (np_sum_all (fun (_ _ : pixel) => true)) in Hall
    by (auto || assumption).
  rewrite <- Hall, <- Hpos, <- Hneg.
  - lia.
  - intros r p; destruct (pixel_eqb r pv), (pixel_eqb p pv); reflexivity.
  - intros r p; destruct (pixel_eqb r pv), (pixel_eqb p pv); reflexivity.
  - intros r p; destruct (pixel_eqb r pv); reflexivity.
Qed.

Lemma raster_counts_match_statistics_witness :
  same_shape ref_2x2 pred_2x2 /\
  count_label (classification ref_2x2 pred_2x2 INUNDATED_VALUE) 1
  = True_Positives (stats_entry ref_2x2 INUNDATED_VALUE 2 100
                                "prediction_15m" pred_2x2).
Proof.
  assert (Hshape : same_shape ref_2x2 pred_2x2) by (repeat constructor).
  split; [exact Hshape|].
  exact (proj1 (@raster_counts_match_statistics ref_2x2 pred_2x2
                  INUNDATED_VALUE 2%Z 100%Q "prediction_15m"%string Hshape)).
Defined.

Lemma percentage_full total :
  (0 < total)%Z -> (percentage total total == 100)%Q.
Proof.
  intro Ht. unfold percentage. rewrite (proj2 (Z.ltb_lt _ _) Ht).
  field. intro H0. change 0%Q with (inject_Z 0) in H0.
  apply (proj1 (inject_Z_injective _ _)) in H0. lia.
Qed.

Lemma percentage_none total : (percentage 0 total == 0)%Q.
Proof.
  unfold percentage. destruct (0 <? total)%Z; [|reflexivity].
  unfold Qdiv. change (inject_Z 0) with 0%Q. ring.
Qed.

Lemma percentage_positive count total :
  (0 < count)%Z -> (0 < total)%Z -> (0 < percentage count total)%Q.
Proof.
  intros Hc Ht. unfold percentage. rewrite (proj2 (Z.ltb_lt _ _) Ht).
  apply Qmult_lt_0_compat; [|reflexivity].
  apply Qlt_shift_div_l.
  - change (inject_Z 0 < inject_Z total)%Q; rewrite <- Zlt_Qlt; assumption.
  - rewrite Qmult_0_l.
    change (inject_Z 0 < inject_Z count)%Q; rewrite <- Zlt_Qlt; assumption.
Qed.

Lemma percentage_zero_count count total :
  (0 <= count)%Z -> (0 < total)%Z ->
  (percentage count total == 0)%Q -> count = 0%Z.
Proof.
  intros Hc Ht Hzero.
  destruct (Z.eq_dec count 0) as [H0 | Hnz]; [exact H0|].
  assert (Hpos : (0 < percentage count total)%Q)
    by (apply percentage_positive; lia).
  rewrite Hzero in Hpos. discriminate.
Qed.

(** X3. When the reference has inundated pixels, the extreme rows are
    reported exactly: with no false negative the row shows TP% = 100 and
    FN% = 0, with no true positive it shows TP% = 0 and FN% = 100; and a
    percentage of 0 is shown only for a count of 0. *)
Theorem percentages_at_extremes ref pred pv area res :
  same_shape ref pred ->
  (0 < np_sum (np_eq ref pv))%Z ->
  (False_Negatives (entry_of ref pred pv area res) = 0%Z ->
   (TP_pct (entry_of ref pred pv area res) == 100)%Q /\
   (FN_pct (entry_of ref pred pv area res) == 0)%Q) /\
  (True_Positives (entry_of ref pred pv area res) = 0%Z ->
   (TP_pct (entry_of ref pred pv area res) == 0)%Q /\
   (FN_pct (entry_of ref pred pv area res) == 100)%Q) /\
  ((TP_pct (entry_of ref pred pv area res) == 0)%Q ->
   True_Positives (entry_of ref pred pv area res) = 0%Z) /\
  ((FN_pct (entry_of ref pred pv area res) == 0)%Q ->
   False_Negatives (entry_of ref pred pv area res) = 0%Z) /\
  ((FP_pct (entry_of ref pred pv area res) == 0)%Q ->
   False_Positives (entry_of ref pred pv area res) = 0%Z).
Proof.
  intros Hshape Htotal. unfold entry_of.
  cbn [stats_entry True_Positives False_Negatives False_Positives
       TP_pct FN_pct FP_pct].
  pose proof (tp_plus_fn pv Hshape) as Hsum.
  pose proof (np_sum_nonneg (valid_mask ref pred pv)) as Htp.
  pose proof (np_sum_nonneg (false_negatives ref pred pv)) as Hfn.
  pose proof (np_sum_nonneg (false_positives ref pred pv)) as Hfp.
  split; [|split; [|split; [|split]]].
  - intro H0. rewrite H0 in *.
    replace (np_sum (valid_mask ref pred pv)) with (np_sum (np_eq ref pv))
      by lia.
    split; [apply percentage_full; assumption | apply percentage_none].
  - intro H0. rewrite H0 in *.
    replace (np_sum (false_negatives ref pred pv)) with (np_sum (np_eq ref pv))
      by lia.
    split; [apply percentage_none | apply percentage_full; assumption].
  - apply percentage_zero_count; assumption.
  - apply percentage_zero_count; assumption.
  - apply percentage_zero_count; assumption.
Qed.

Lemma percentages_at_extremes_witness :
  same_shape ref_2x2 pred_same_footprint /\
  (0 < np_sum (np_eq ref_2x2 INUNDATED_VALUE))%Z /\
  False_Negatives (entry_of ref_2x2 pred_same_footprint INUNDATED_VALUE
                            100 "prediction_15m") = 0%Z /\
  (TP_pct (entry_of ref_2x2 pred_same_footprint INUNDATED_VALUE
                    100 "prediction_15m") == 100)%Q.
Proof.
  assert (Hshape : same_shape ref_2x2 pred_same_footprint)
    by (repeat constructor).
  assert (Htotal : (0 < np_sum (np_eq ref_2x2 INUNDATED_VALUE))%Z)
    by reflexivity.
  assert (Hfn : False_Negatives (entry_of ref_2x2 pred_same_footprint
                                          INUNDATED_VALUE 100 "prediction_15m")
                = 0%Z) by reflexivity.
  split; [exact Hshape|]. split; [exact Htotal|]. split; [exact Hfn|].
  exact (proj1 (proj1 (@percentages_at_extremes ref_2x2 pred_same_footprint
                         INUNDATED_VALUE 100%Q "prediction_15m"%string
                         Hshape Htotal) Hfn)).
Defined.

(** X4. A prediction with the same inundated footprint as the reference
    (equal to the positive value at exactly the same pixels, whatever its
    other values) has no false negative and no false positive, and all
    reference-positive pixels are true positives. *)
Theorem same_footprint_no_error ref pred pv total area res :
  same_shape ref pred ->
  np_eq pred pv = np_eq ref pv ->
  False_Negatives (stats_entry ref pv total area res pred) = 0%Z /\
  False_Positives (stats_entry ref pv total area res pred) = 0%Z /\
  True_Positives (stats_entry ref pv total area res pred)
  = np_sum (np_eq ref pv).
Proof.
  intros Hshape Hfoot.
  cbn [stats_entry True_Positives False_Negatives False_Positives].
  assert (Hfn : np_sum (false_negatives ref pred pv) = 0%Z).
  { unfold false_negatives. rewrite np_ne_invert, Hfoot.
    apply np_sum_and_invert_r. }
  assert (Hfp : np_sum (false_positives ref pred pv) = 0%Z).
  { unfold false_positives. rewrite np_ne_invert, Hfoot.
    apply np_sum_and_invert_l. }
  pose proof (tp_plus_fn pv Hshape) as Hsum.
  repeat split; [assumption | assumption | lia].
Qed.

Lemma same_footprint_no_error_witness :
  same_shape ref_2x2 pred_same_footprint /\
  np_eq pred_same_footprint INUNDATED_VALUE = np_eq ref_2x2 INUNDATED_VALUE /\
  False_Negatives (stats_entry ref_2x2 INUNDATED_VALUE 2 100 "prediction_15m"
                               pred_same_footprint) = 0%Z.
Proof.
  assert (Hshape : same_shape ref_2x2 pred_same_footprint)
    by (repeat constructor).
  assert (Hfoot : np_eq pred_same_footprint INUNDATED_VALUE
                  = np_eq ref_2x2 INUNDATED_VALUE) by reflexivity.
  split; [exact Hshape|]. split; [exact Hfoot|].
  exact (proj1 (@same_footprint_no_error ref_2x2 pred_same_footprint
                  INUNDATED_VALUE 2%Z 100%Q "prediction_15m"%string
                  Hshape Hfoot)).
Defined.

(** ** [main] as a whole *)

Lemma main_fold ref total area coarse_inputs out (t : Affine) :
  total = np_sum (np_eq ref INUNDATED_VALUE) -> area = pixel_area t ->
  fold_left (main_step ref total area) coarse_inputs out
  = {| rasters := rasters out ++ map (raster_of ref) coarse_inputs;
       stats := stats out ++ map (row_of t ref) coarse_inputs |}.
Proof.
  intros -> ->. revert out.
  induction coarse_inputs as [|c cs IH]; intro out; simpl.
  - rewrite !app_nil_r; destruct out; reflexivity.
  - rewrite IH. unfold main_step; cbn [rasters stats].
    rewrite <- !app_assoc; reflexivity.
Qed.

Lemma main_eq t ref coarse_inputs :
  main t ref coarse_inputs
  = {| rasters := map (raster_of ref) coarse_inputs;
       stats := map (row_of t ref) coarse_inputs |}.
Proof.
  unfold main; cbv zeta.
  rewrite (@main_fold ref _ _ coarse_inputs _ t eq_refl eq_refl); reflexivity.
Qed.

(** X5. [main] emits one statistics row and one classification raster per
    prediction, in the order of the predictions, and each is computed
    from the reference and that prediction alone: running [main] on two
    batches one after the other gives the outputs of the first batch
    followed by the outputs of the second. *)
Theorem main_outputs_in_order t ref coarse_inputs :
  stats (main t ref coarse_inputs) = map (row_of t ref) coarse_inputs /\
  rasters (main t ref coarse_inputs) = map (raster_of ref) coarse_inputs /\
  forall more,
    stats (main t ref (coarse_inputs ++ more))
    = stats (main t ref coarse_inputs) ++ stats (main t ref more) /\
    rasters (main t ref (coarse_inputs ++ more))
    = rasters (main t ref coarse_inputs) ++ rasters (main t ref more).
Proof.
  split; [rewrite main_eq; reflexivity|].
  split; [rewrite main_eq; reflexivity|].
  intro more; rewrite !main_eq; cbn [stats rasters]; rewrite !map_app; auto.
Qed.

(** X6. Every area [main] reports is non-negative, whatever the signs of
    the transform coefficients (north-up rasters have a negative row
    height): pixel_area is an absolute value and the counts are not
    negative. *)
Theorem areas_nonnegative t ref coarse_inputs :
  (0 <= pixel_area t)%Q /\
  Forall (fun row =>
            (0 <= TP_Area row)%Q /\ (0 <= FN_Area row)%Q /\
            (0 <= FP_Area row)%Q)
         (stats (main t ref coarse_inputs)).
Proof.
  assert (Harea : (0 <= pixel_area t)%Q) by apply Qabs_nonneg.
  split; [exact Harea|].
  rewrite main_eq; cbn [stats].
  apply Forall_map, Forall_forall; intros c _.
  unfold row_of; cbn [stats_entry TP_Area FN_Area FP_Area].
  assert (Hnn : forall m, (0 <= inject_Z (np_sum m) * pixel_area t)%Q).
  { intro m. apply Qmult_le_0_compat; [|exact Harea].
    change 0%Q with (inject_Z 0); rewrite <- Zle_Qle; apply np_sum_nonneg. }
  repeat split; apply Hnn.
Qed.

(** X7. Each raster [main] writes has the shape of the reference and holds,
    at every pixel, the code of the label the priority rule gives to the
    reference sample and the sample [reproject] delivered there. *)
Theorem main_raster_pixels t ref coarse_inputs c i j r :
  In c coarse_inputs ->
  getitem ref i j = Some r ->
  In (raster_of ref c) (rasters (main t ref coarse_inputs)) /\
  fst (raster_of ref c)
  = ("output/classification_" ++ coarse_res c ++ ".tif")%string /\
  same_shape ref (snd (raster_of ref c)) /\
  getitem (snd (raster_of ref c)) i j
  = Some (label_code (spec_label r (coarse_warp c i j) INUNDATED_VALUE)).
Proof.
  intros Hin Hr.
  rewrite main_eq; cbn [rasters].
  split; [apply in_map; assumption|].
  split; [reflexivity|].
  unfold raster_of; cbn [snd].
  split.
  - apply same_shape_classification, same_shape_reproject_like.
  - rewrite getitem_classification, getitem_reproject_like, Hr.
    cbn [option_map]. unfold written, spec_label.
    destruct (pixel_eqb r INUNDATED_VALUE),
      (pixel_eqb (coarse_warp c i j) INUNDATED_VALUE); reflexivity.
Qed.

Lemma main_raster_pixels_witness :
  In (warp_constant (px 1)) [warp_constant (px 1)] /\
  getitem ref_1x3 0 1 = Some (px 0) /\
  getitem (snd (raster_of ref_1x3 (warp_constant (px 1)))) 0 1
  = Some (label_code (spec_label (px 0) (px 1) INUNDATED_VALUE)).
Proof.
  assert (Hin : In (warp_constant (px 1)) [warp_constant (px 1)])
    by (left; reflexivity).
  assert (Hr : getitem ref_1x3 0 1 = Some (px 0)) by reflexivity.
  split; [exact Hin|]. split; [exact Hr|].
  exact (proj2 (proj2 (proj2 (@main_raster_pixels transform_10m ref_1x3
           [warp_constant (px 1)] (warp_constant (px 1)) 0%nat 1%nat (px 0)
           Hin Hr)))).
Defined.

(** X8. The name under which a prediction is reported: for a path
    [dir/stem.ext] (or [stem.ext]) whose stem has no slash and no dot it
    is the stem, and the raster goes to output/classification_stem.tif;
    in general the name contains neither a slash nor a dot. *)
Theorem res_of_path_stem dir stem ext :
  occurs "/" stem = false ->
  occurs "." stem = false ->
  occurs "/" ext = false ->
  res_of_path (dir ++ "/" ++ stem ++ "." ++ ext) = stem /\
  res_of_path (stem ++ "." ++ ext) = stem /\
  (forall ref warp,
      fst (raster_of ref (coarse_of_path (dir ++ "/" ++ stem ++ "." ++ ext) warp))
      = ("output/classification_" ++ stem ++ ".tif")%string) /\
  forall p, occurs "/" (res_of_path p) = false
            /\ occurs "." (res_of_path p) = false.
Proof.
  intros Hslash Hdot Hext.
  assert (Hname : occurs "/" (stem ++ "." ++ ext) = false).
  { rewrite occurs_app, Hslash; simpl; exact Hext. }
  assert (Hres : res_of_path (dir ++ "/" ++ stem ++ "." ++ ext) = stem).
  { unfold res_of_path.
    change (dir ++ "/" ++ stem ++ "." ++ ext)%string
      with (dir ++ String "/" (stem ++ "." ++ ext))%string.
    rewrite basename_of_join by assumption.
    apply before_dot_stem; assumption. }
  split; [exact Hres|]. split; [|split].
  - unfold res_of_path. rewrite basename_plain by assumption.
    apply before_dot_stem; assumption.
  - intros ref warp. unfold raster_of, coarse_of_path; cbn [fst coarse_res].
    rewrite Hres; reflexivity.
  - intro p; unfold res_of_path; split.
    + apply before_dot_keeps_absent, basename_no_slash.
    + apply before_dot_no_dot.
Qed.

Lemma res_of_path_stem_witness :
  occurs "/" "prediction_15m" = false /\
  occurs "." "prediction_15m" = false /\
  occurs "/" "tif" = false /\
  res_of_path ("data/run1" ++ "/" ++ "prediction_15m" ++ "." ++ "tif")
  = "prediction_15m"%string.
Proof.
  split; [reflexivity|]. split; [reflexivity|]. split; [reflexivity|].
  exact (proj1 (@res_of_path_stem "data/run1" "prediction_15m" "tif"
                  eq_refl eq_refl eq_refl)).
Defined.

End DetectorExtra.

(* ================================================================== *)
(** * Further properties of the error comparator *)
(* ================================================================== *)

Module NRMSEExtra.
Import Numpy NumpyFacts NRMSE NRMSEFacts.
Local Open Scope R_scope.

(** ** Masked samples *)

Lemma agree_same_shape a b : agree_unmasked a b -> same_shape a b.
Proof.
  induction 1 as [|r s a b Hrs Hab IH]; constructor; [|exact IH].
  eapply Forall2_length; eassumption.
Qed.

Lemma agree_ravel a b :
  agree_unmasked a b -> Forall2 cell_agree (ravel a) (ravel b).
Proof.
  unfold ravel; induction 1 as [|r s a b Hrs Hab IH]; simpl;
    [constructor | apply Forall2_app; assumption].
Qed.

Lemma joint_pairs_agree xs xs' :
  Forall2 cell_agree xs xs' ->
  forall ys ys',
    Forall2 cell_agree ys ys' ->
    map (fun cells : (R * bool) * (R * bool) => (fst (fst cells), fst (snd cells)))
        (filter jointly_valid (combine xs ys))
    = map (fun cells => (fst (fst cells), fst (snd cells)))
          (filter jointly_valid (combine xs' ys')).
Proof.
  induction 1 as [|[x mx] [x' mx'] xs xs' [Hm Hx] Hxs IH];
    intros ys ys' Hys; [reflexivity|].
  destruct Hys as [|[y my] [y' my'] ys ys' [Hmy Hy] Hys]; [reflexivity|].
  cbn [fst snd] in *; subst mx' my'.
  destruct mx, my;
    cbn [combine filter jointly_valid negb andb map fst snd];
    try (apply IH; assumption).
  rewrite (Hx eq_refl), (Hy eq_refl); f_equal; apply IH; assumption.
Qed.

Lemma spec_joint_pairs_agree reference reference' prediction prediction' :
  agree_unmasked reference reference' ->
  agree_unmasked prediction prediction' ->
  spec_joint_pairs reference prediction
  = spec_joint_pairs reference' prediction'.
Proof.
  intros Hr Hp; unfold spec_joint_pairs.
  apply joint_pairs_agree; apply agree_ravel; assumption.
Qed.

(** X9. The samples under a mask never reach the result: two references
    (and two predictions) with the same masks and the same unmasked
    samples give the same outcome, whatever lies under the masks. *)
Theorem masked_samples_ignored reference reference' prediction prediction'
        normalization :
  same_shape reference prediction ->
  agree_unmasked reference reference' ->
  agree_unmasked prediction prediction' ->
  compute_nrmse reference' prediction' normalization
  = compute_nrmse reference prediction normalization.
Proof.
  intros Hshape Hr Hp.
  assert (Hshape' : same_shape reference' prediction').
  { apply same_shape_trans with (b := reference);
      [apply same_shape_sym, agree_same_shape; assumption|].
    apply same_shape_trans with (b := prediction);
      [assumption | apply agree_same_shape; assumption]. }
  rewrite !compute_nrmse_unfold by assumption; cbv zeta.
  rewrite (spec_joint_pairs_agree Hr Hp); reflexivity.
Qed.

Lemma agree_unmasked_refl a : agree_unmasked a a.
Proof.
  induction a as [|r a IH]; constructor; [|exact IH].
  induction r as [|x r IHr]; constructor; [split; auto | exact IHr].
Qed.

Lemma masked_samples_ignored_witness :
  same_shape ref_patch pred_patch /\
  agree_unmasked ref_patch ref_patch_refilled /\
  agree_unmasked pred_patch pred_patch /\
  compute_nrmse ref_patch_refilled pred_patch "range"
  = compute_nrmse ref_patch pred_patch "range".
Proof.
  assert (Hshape : same_shape ref_patch pred_patch) by (repeat constructor).
  assert (Hr : agree_unmasked ref_patch ref_patch_refilled).
  { repeat (constructor; [repeat (constructor; [split; [reflexivity|]|])|]);
      try constructor; cbn; (reflexivity || discriminate). }
  assert (Hp : agree_unmasked pred_patch pred_patch)
    by apply agree_unmasked_refl.
  split; [exact Hshape|]. split; [exact Hr|]. split; [exact Hp|].
  exact (@masked_samples_ignored ref_patch ref_patch_refilled
           pred_patch pred_patch "range"%string Hshape Hr Hp).
Defined.

Lemma raises_iff reference prediction normalization e :
  same_shape reference prediction ->
  compute_nrmse reference prediction normalization = Raise e <->
  (normalization = "range"%string /\
   spec_joint_pairs reference prediction = [] /\ e = zero_size_maximum) \/
  (normalization <> "range"%string /\ normalization <> "mean"%string /\
   normalization <> "std"%string /\ e = invalid_method).
Proof.
  intro Hshape. rewrite compute_nrmse_unfold by assumption; cbv zeta.
  unfold norm_factor_of.
  destruct (String.eqb_spec normalization "range") as [-> | Hr].
  - destruct (spec_joint_pairs reference prediction) as [|rp pairs] eqn:Hpairs.
    + cbn. split.
      * intros [= <-]; left; auto.
      * intros [(_ & _ & ->) | (H & _)]; [reflexivity | congruence].
    + cbn. split; [discriminate|].
      intros [(_ & H & _) | (H & _)]; [discriminate | congruence].
  - destruct (String.eqb_spec normalization "mean") as [-> | Hm].
    + cbn. split; [discriminate|].
      intros [(H & _) | (_ & H & _)]; [discriminate | congruence].
    + destruct (String.eqb_spec normalization "std") as [-> | Hs].
      * cbn. split; [discriminate|].
        intros [(H & _) | (_ & _ & H & _)]; [discriminate | congruence].
      * cbn. split.
        -- intros [= <-]; right; auto.
        -- intros [(H & _) | (_ & _ & _ & ->)]; [congruence | reflexivity].
Qed.

(** X10. On arrays of one shape [compute_nrmse] raises in exactly two
    situations: the method is 'range' and no pixel is jointly valid
    (numpy's zero-size error from the maximum), or the method is none of
    'range', 'mean', 'std' (the script's own error).  In every other case
    it returns a value. *)
Theorem compute_nrmse_raises_iff reference prediction normalization e :
  same_shape reference prediction ->
  compute_nrmse reference prediction normalization = Raise e <->
  (normalization = "range"%string /\
   spec_joint_pairs reference prediction = [] /\ e = zero_size_maximum) \/
  (normalization <> "range"%string /\ normalization <> "mean"%string /\
   normalization <> "std"%string /\ e = invalid_method).
Proof. apply raises_iff. Qed.

Lemma compute_nrmse_raises_iff_witness :
  same_shape ref_left_masked pred_right_masked /\
  compute_nrmse ref_left_masked pred_right_masked "range"
  = Raise zero_size_maximum.
Proof.
  assert (Hshape : same_shape ref_left_masked pred_right_masked)
    by (repeat constructor).
  split; [exact Hshape|].
  apply (proj2 (@compute_nrmse_raises_iff ref_left_masked pred_right_masked
                  "range"%string zero_size_maximum Hshape)).
  left; repeat split.
Defined.

(** ** Sign of the result *)

Lemma spec_norm_factor_nonneg refs normalization nf :
  spec_norm_factor refs normalization nf ->
  normalization = "range"%string \/ normalization = "std"%string ->
  0 <= nf.
Proof.
  intros Hspec Hmethod.
  destruct Hspec as [mx mn [Hinx Hmx] [Hinn Hmn] | | ].
  - rewrite Forall_forall in Hmx. specialize (Hmx mn Hinn). lra.
  - destruct Hmethod; discriminate.
  - apply sqrt_pos.
Qed.

Lemma percent_never_negative a b :
  0 <= a -> 0 <= b ->
  never_negative (fmul (fdiv (Finite a) (Finite b)) (Finite 100)).
Proof.
  intros Ha Hb.
  destruct (Req_dec_T b 0) as [-> | Hbz].
  - destruct (Req_dec_T a 0) as [-> | Haz].
    + rewrite percent_zero_over_zero; exact I.
    + rewrite percent_positive_over_zero by lra; exact I.
  - rewrite percent_finite by assumption. cbn.
    apply Rmult_le_pos; [|lra].
    apply Rmult_le_pos; [assumption|].
    apply Rlt_le, Rinv_0_lt_compat; lra.
Qed.

Lemma range_std_value reference prediction normalization :
  same_shape reference prediction ->
  spec_joint_pairs reference prediction <> [] ->
  normalization = "range"%string \/ normalization = "std"%string ->
  exists v,
    compute_nrmse reference prediction normalization = Ok v /\
    never_negative v.
Proof.
  intros Hshape Hne Hmethod.
  assert (Hrefs : map fst (spec_joint_pairs reference prediction) <> [])
    by (destruct (spec_joint_pairs reference prediction);
        [congruence | discriminate]).
  assert (Hthree : normalization = "range"%string
                   \/ normalization = "mean"%string
                   \/ normalization = "std"%string) by tauto.
  destruct (spec_norm_factor_exists Hrefs Hthree) as [nf Hspec].
  rewrite (compute_nrmse_value _ Hshape Hne (norm_factor_of_spec Hrefs Hspec)).
  eexists; split; [reflexivity|].
  apply percent_never_negative;
    [apply spec_rmse_nonneg | eapply spec_norm_factor_nonneg; eassumption].
Qed.

(** X11. Under 'range' and 'std' normalisation the outcome is never negative:
    with at least one jointly valid pixel [compute_nrmse] returns a finite
    non-negative number, +infinity or NaN. *)
Theorem range_std_never_negative reference prediction normalization :
  same_shape reference prediction ->
  spec_joint_pairs reference prediction <> [] ->
  normalization = "range"%string \/ normalization = "std"%string ->
  exists v,
    compute_nrmse reference prediction normalization = Ok v /\
    never_negative v.
Proof. apply range_std_value. Qed.

Lemma range_std_never_negative_witness :
  same_shape ref_patch pred_patch /\
  spec_joint_pairs ref_patch pred_patch <> [] /\
  exists v, compute_nrmse ref_patch pred_patch "std" = Ok v /\ never_negative v.
Proof.
  assert (Hshape : same_shape ref_patch pred_patch) by (repeat constructor).
  assert (Hne : spec_joint_pairs ref_patch pred_patch <> []) by discriminate.
  split; [exact Hshape|]. split; [exact Hne|].
  exact (@range_std_never_negative ref_patch pred_patch "std"%string
           Hshape Hne (or_intror eq_refl)).
Defined.

(** ** A single jointly valid pixel *)

Lemma norm_factor_single normalization r :
  normalization = "range"%string \/ normalization = "std"%string ->
  norm_factor_of normalization [r] = Ok (Finite 0).
Proof.
  intros [-> | ->].
  - change (norm_factor_of "range" [r]) with (Ok (Finite (r - r))).
    do 2 f_equal; ring.
  - change (norm_factor_of "std" [r]) with (Ok (np_std [r])).
    rewrite np_std_nonempty by discriminate. do 2 f_equal.
    assert (Hmean : arithmetic_mean [r] = r)
      by (unfold arithmetic_mean; simpl; field).
    rewrite Hmean. unfold arithmetic_mean; simpl.
    replace (((r - r) * (r - r) + 0) / 1) with 0 by field.
    apply sqrt_0.
Qed.

(** X12. When exactly one pixel is valid in both rasters, 'range' and 'std'
    normalisation cannot give a number: the factor is 0, and the outcome
    is NaN if the two samples are equal and +infinity if they differ. *)
Theorem single_pixel_degenerate reference prediction normalization r p :
  same_shape reference prediction ->
  spec_joint_pairs reference prediction = [(r, p)] ->
  normalization = "range"%string \/ normalization = "std"%string ->
  (r = p -> compute_nrmse reference prediction normalization = Ok NaN) /\
  (r <> p -> compute_nrmse reference prediction normalization = Ok PosInf).
Proof.
  intros Hshape Hpairs Hmethod.
  assert (Hne : spec_joint_pairs reference prediction <> [])
    by (rewrite Hpairs; discriminate).
  assert (Hnf : norm_factor_of normalization
                  (map fst (spec_joint_pairs reference prediction))
                = Ok (Finite 0))
    by (rewrite Hpairs; apply norm_factor_single; assumption).
  rewrite (compute_nrmse_value _ Hshape Hne Hnf), Hpairs.
  split.
  - intros ->. rewrite spec_rmse_identical by (repeat constructor).
    rewrite percent_zero_over_zero; reflexivity.
  - intro Hdiff. rewrite percent_positive_over_zero; [reflexivity|].
    apply spec_rmse_positive; [discriminate|].
    intro Hid; inversion Hid; subst; auto.
Qed.

Lemma single_pixel_degenerate_witness :
  same_shape ref_single pred_single /\
  spec_joint_pairs ref_single pred_single = [(4, 6)] /\
  compute_nrmse ref_single pred_single "std" = Ok PosInf.
Proof.
  assert (Hshape : same_shape ref_single pred_single) by (repeat constructor).
  assert (Hpairs : spec_joint_pairs ref_single pred_single = [(4, 6)])
    by reflexivity.
  split; [exact Hshape|]. split; [exact Hpairs|].
  apply (proj2 (@single_pixel_degenerate ref_single pred_single "std"%string
                  4 6 Hshape Hpairs (or_intror eq_refl))).
  lra.
Defined.

(** ** Change of units *)

Lemma same_shape_ma_map (f : R * bool -> R * bool) reference prediction :
  same_shape reference prediction ->
  same_shape (np_map f reference) (np_map f prediction).
Proof.
  intro H.
  apply same_shape_trans with (b := reference);
    [apply same_shape_sym, same_shape_np_map|].
  apply same_shape_trans with (b := prediction);
    [assumption | apply same_shape_np_map].
Qed.

Lemma joint_pairs_map (g : R -> R) xs : forall ys,
  map (fun cells : (R * bool) * (R * bool) => (fst (fst cells), fst (snd cells)))
      (filter jointly_valid
         (combine (map (fun cell => (g (fst cell), snd cell)) xs)
                  (map (fun cell => (g (fst cell), snd cell)) ys)))
  = map (fun rp => (g (fst rp), g (snd rp)))
        (map (fun cells => (fst (fst cells), fst (snd cells)))
             (filter jointly_valid (combine xs ys))).
Proof.
  induction xs as [|[x mx] xs IH]; intros [|[y my] ys]; try reflexivity.
  destruct mx, my;
    cbn [combine filter jointly_valid negb andb map fst snd];
    rewrite IH; reflexivity.
Qed.

Lemma spec_joint_pairs_map (g : R -> R) reference prediction :
  spec_joint_pairs (np_map (fun cell => (g (fst cell), snd cell)) reference)
                   (np_map (fun cell => (g (fst cell), snd cell)) prediction)
  = map (fun rp => (g (fst rp), g (snd rp)))
        (spec_joint_pairs reference prediction).
Proof.
  unfold spec_joint_pairs; rewrite !ravel_np_map; apply joint_pairs_map.
Qed.

Lemma sum_R_scale {A : Type} (c : R) (f : A -> R) l :
  sum_R (map (fun x => c * f x) l) = c * sum_R (map f l).
Proof. induction l as [|x l IH]; simpl; [ring | rewrite IH; ring]. Qed.

Lemma sum_R_mult c l : sum_R (map (Rmult c) l) = c * sum_R l.
Proof. induction l as [|x l IH]; simpl; [ring | rewrite IH; ring]. Qed.

Lemma arithmetic_mean_scale c l :
  arithmetic_mean (map (Rmult c) l) = c * arithmetic_mean l.
Proof.
  unfold arithmetic_mean. rewrite length_map, sum_R_mult.
  unfold Rdiv; ring.
Qed.

Lemma sqrt_scale c x : 0 <= c -> sqrt (c * c * x) = c * sqrt x.
Proof.
  intro Hc. rewrite sqrt_mult_alt by (apply Rle_0_sqr).
  rewrite sqrt_square by assumption; reflexivity.
Qed.

Lemma spec_rmse_scale c pairs :
  0 <= c ->
  spec_rmse (map (fun rp => (c * fst rp, c * snd rp)) pairs)
  = c * spec_rmse pairs.
Proof.
  intro Hc. unfold spec_rmse. rewrite map_map, length_map. cbn [fst snd].
  rewrite <- sqrt_scale by assumption. f_equal.
  set (sq := fun rp : R * R => (fst rp - snd rp) * (fst rp - snd rp)).
  replace (map (fun rp : R * R =>
                  (c * fst rp - c * snd rp) * (c * fst rp - c * snd rp)) pairs)
    with (map (fun rp => (c * c) * sq rp) pairs)
    by (apply map_ext; intro; unfold sq; ring).
  rewrite sum_R_scale. unfold Rdiv; ring.
Qed.

Lemma arithmetic_mean_scale_map {A : Type} c (f : A -> R) l :
  arithmetic_mean (map (fun x => c * f x) l) = c * arithmetic_mean (map f l).
Proof.
  unfold arithmetic_mean. rewrite !length_map, sum_R_scale.
  unfold Rdiv; ring.
Qed.

Lemma is_maximum_scale c l m :
  0 < c -> is_maximum l m -> is_maximum (map (Rmult c) l) (c * m).
Proof.
  intros Hc [Hin Hall]; split; [apply in_map; assumption|].
  apply Forall_map. eapply Forall_impl; [|exact Hall].
  intros x Hx; cbn. apply Rmult_le_compat_l; lra.
Qed.

Lemma is_minimum_scale c l m :
  0 < c -> is_minimum l m -> is_minimum (map (Rmult c) l) (c * m).
Proof.
  intros Hc [Hin Hall]; split; [apply in_map; assumption|].
  apply Forall_map. eapply Forall_impl; [|exact Hall].
  intros x Hx; cbn. apply Rmult_le_compat_l; lra.
Qed.

Lemma spec_norm_factor_scale c refs normalization nf :
  0 < c ->
  spec_norm_factor refs normalization nf ->
  spec_norm_factor (map (Rmult c) refs) normalization (c * nf).
Proof.
  intros Hc Hspec.
  destruct Hspec as [mx mn Hmx Hmn | | ].
  - replace (c * (mx - mn)) with (c * mx - c * mn) by ring.
    apply norm_range; [apply is_maximum_scale | apply is_minimum_scale];
      assumption.
  - rewrite <- arithmetic_mean_scale; apply norm_mean.
  - match goal with
    | |- spec_norm_factor _ _ ?v =>
        replace v with
          (sqrt (arithmetic_mean
                   (map (fun x => (x - arithmetic_mean (map (Rmult c) refs))
                                  * (x - arithmetic_mean (map (Rmult c) refs)))
                        (map (Rmult c) refs))));
        [apply norm_std|]
    end.
    rewrite arithmetic_mean_scale, map_map.
    rewrite <- sqrt_scale by lra. f_equal.
    rewrite <- arithmetic_mean_scale_map. f_equal.
    apply map_ext; intro x; ring.
Qed.

Lemma percent_scale c a b :
  0 < c ->
  fmul (fdiv (Finite (c * a)) (Finite (c * b))) (Finite 100)
  = fmul (fdiv (Finite a) (Finite b)) (Finite 100).
Proof.
  intro Hc. unfold fdiv.
  destruct (Req_dec_T b 0) as [-> | Hb].
  - rewrite Rmult_0_r, !is_zero_true by reflexivity.
    destruct (Req_dec_T a 0) as [-> | Ha].
    + rewrite Rmult_0_r, !is_zero_true by reflexivity; reflexivity.
    + rewrite !is_zero_false by (try assumption; apply Rmult_integral_contrapositive; lra).
      destruct (Rlt_dec a 0) as [Hneg | Hpos].
      * rewrite !is_negative_true by (try assumption; nra); reflexivity.
      * rewrite !is_negative_false by (try lra; nra); reflexivity.
  - rewrite !is_zero_false
      by (try assumption; apply Rmult_integral_contrapositive; lra).
    cbn [fmul]. f_equal. field; split; lra.
Qed.

Lemma map_fst_pairs (g : R -> R) (pairs : list (R * R)) :
  map fst (map (fun rp => (g (fst rp), g (snd rp))) pairs)
  = map g (map fst pairs).
Proof. rewrite !map_map; reflexivity. Qed.

Lemma compute_nrmse_cases reference prediction normalization :
  same_shape reference prediction ->
  spec_joint_pairs reference prediction = [] \/
  (normalization <> "range"%string /\ normalization <> "mean"%string
   /\ normalization <> "std"%string) \/
  (spec_joint_pairs reference prediction <> [] /\
   exists nf,
     spec_norm_factor (map fst (spec_joint_pairs reference prediction))
                      normalization nf).
Proof.
  intro Hshape.
  destruct (spec_joint_pairs reference prediction) as [|rp pairs] eqn:Hpairs;
    [left; reflexivity | right].
  destruct (String.eqb_spec normalization "range") as [Hr | Hr];
    [|destruct (String.eqb_spec normalization "mean") as [Hm | Hm];
      [|destruct (String.eqb_spec normalization "std") as [Hs | Hs]]];
    try (left; repeat split; assumption);
    right; (split; [discriminate|]);
    apply spec_norm_factor_exists; try discriminate; auto.
Qed.

(** X13. The result does not depend on the unit of the rasters: multiplying
    every sample of the reference and of the prediction by the same
    positive factor leaves the outcome of [compute_nrmse] unchanged, for
    every method and every input of one shape. *)
Theorem nrmse_scale_invariant c reference prediction normalization :
  0 < c ->
  same_shape reference prediction ->
  compute_nrmse (ma_scale c reference) (ma_scale c prediction) normalization
  = compute_nrmse reference prediction normalization.
Proof.
  intros Hc Hshape.
  assert (Hshape' : same_shape (ma_scale c reference) (ma_scale c prediction))
    by (apply same_shape_ma_map; assumption).
  assert (Hpairs : spec_joint_pairs (ma_scale c reference)
                                    (ma_scale c prediction)
                   = map (fun rp => (c * fst rp, c * snd rp))
                         (spec_joint_pairs reference prediction))
    by apply (spec_joint_pairs_map (Rmult c)).
  destruct (compute_nrmse_cases normalization Hshape)
    as [Hempty | [(Hr & Hm & Hs) | (Hne & nf & Hspec)]].
  - rewrite !compute_nrmse_empty; try assumption; [reflexivity|].
    rewrite Hpairs, Hempty; reflexivity.
  - rewrite !compute_nrmse_unfold by assumption; cbv zeta.
    rewrite !norm_factor_of_invalid by assumption; reflexivity.
  - assert (Hrefs : map fst (spec_joint_pairs reference prediction) <> [])
      by (destruct (spec_joint_pairs reference prediction);
          [congruence | discriminate]).
    rewrite (compute_nrmse_value _ Hshape Hne (norm_factor_of_spec Hrefs Hspec)).
    assert (Hne' : spec_joint_pairs (ma_scale c reference)
                                    (ma_scale c prediction) <> [])
      by (rewrite Hpairs;
          destruct (spec_joint_pairs reference prediction);
          [congruence | discriminate]).
    assert (Hnf' : norm_factor_of normalization
                     (map fst (spec_joint_pairs (ma_scale c reference)
                                                (ma_scale c prediction)))
                   = Ok (Finite (c * nf))).
    { rewrite Hpairs, (map_fst_pairs (Rmult c)).
      apply norm_factor_of_spec;
        [destruct (map fst (spec_joint_pairs reference prediction));
         [congruence | discriminate]
        | apply spec_norm_factor_scale; assumption]. }
    rewrite (compute_nrmse_value _ Hshape' Hne' Hnf'), Hpairs.
    rewrite spec_rmse_scale by lra.
    rewrite percent_scale by assumption; reflexivity.
Qed.

Lemma nrmse_scale_invariant_witness :
  0 < 1000 /\
  same_shape ref_patch pred_patch /\
  compute_nrmse (ma_scale 1000 ref_patch) (ma_scale 1000 pred_patch) "mean"
  = compute_nrmse ref_patch pred_patch "mean".
Proof.
  assert (Hc : 0 < 1000) by lra.
  assert (Hshape : same_shape ref_patch pred_patch) by (repeat constructor).
  split; [exact Hc|]. split; [exact Hshape|].
  exact (@nrmse_scale_invariant 1000 ref_patch pred_patch "mean"%string
           Hc Hshape).
Defined.

Lemma spec_rmse_shift k pairs :
  spec_rmse (map (fun rp => (fst rp + k, snd rp + k)) pairs) = spec_rmse pairs.
Proof.
  unfold spec_rmse. rewrite map_map, length_map. cbn [fst snd].
  do 3 f_equal. apply map_ext; intro rp; ring.
Qed.

Lemma is_maximum_shift k l m :
  is_maximum l m -> is_maximum (map (fun x => x + k) l) (m + k).
Proof.
  intros [Hin Hall]; split.
  - apply (in_map (fun x => x + k)); assumption.
  - apply Forall_map. eapply Forall_impl; [|exact Hall].
    intros x Hx; cbn in *; lra.
Qed.

Lemma is_minimum_shift k l m :
  is_minimum l m -> is_minimum (map (fun x => x + k) l) (m + k).
Proof.
  intros [Hin Hall]; split.
  - apply (in_map (fun x => x + k)); assumption.
  - apply Forall_map. eapply Forall_impl; [|exact Hall].
    intros x Hx; cbn in *; lra.
Qed.

Lemma sum_R_shift k l :
  sum_R (map (fun x => x + k) l) = sum_R l + INR (length l) * k.
Proof.
  induction l as [|x l IH]; [simpl; ring|].
  cbn [map sum_R fold_right length]. fold (sum_R (map (fun x => x + k) l)).
  fold (sum_R l). rewrite IH, S_INR; ring.
Qed.

Lemma arithmetic_mean_shift k l :
  l <> [] ->
  arithmetic_mean (map (fun x => x + k) l) = arithmetic_mean l + k.
Proof.
  intro Hne. unfold arithmetic_mean. rewrite length_map, sum_R_shift.
  pose proof (INR_length_pos Hne). field; lra.
Qed.

Lemma spec_norm_factor_shift k refs normalization nf :
  refs <> [] ->
  normalization = "range"%string \/ normalization = "std"%string ->
  spec_norm_factor refs normalization nf ->
  spec_norm_factor (map (fun x => x + k) refs) normalization nf.
Proof.
  intros Hne Hmethod Hspec.
  destruct Hspec as [mx mn Hmx Hmn | | ].
  - replace (mx - mn) with ((mx + k) - (mn + k)) by ring.
    apply norm_range; [apply is_maximum_shift | apply is_minimum_shift];
      assumption.
  - destruct Hmethod; discriminate.
  - match goal with
    | |- spec_norm_factor ?l _ ?v =>
        replace v with
          (sqrt (arithmetic_mean
                   (map (fun x => (x - arithmetic_mean l)
                                  * (x - arithmetic_mean l)) l)));
        [apply norm_std|]
    end.
    rewrite arithmetic_mean_shift, map_map by assumption.
    do 2 f_equal. apply map_ext; intro x; ring.
Qed.

(** X14. Under 'range' and 'std' normalisation the result does not depend on
    the origin of the scale either: adding the same constant to every
    sample of the reference and of the prediction leaves the outcome
    unchanged. *)
Theorem nrmse_shift_invariant k reference prediction normalization :
  same_shape reference prediction ->
  normalization = "range"%string \/ normalization = "std"%string ->
  compute_nrmse (ma_shift k reference) (ma_shift k prediction) normalization
  = compute_nrmse reference prediction normalization.
Proof.
  intros Hshape Hmethod.
  assert (Hshape' : same_shape (ma_shift k reference) (ma_shift k prediction))
    by (apply same_shape_ma_map; assumption).
  assert (Hpairs : spec_joint_pairs (ma_shift k reference)
                                    (ma_shift k prediction)
                   = map (fun rp => (fst rp + k, snd rp + k))
                         (spec_joint_pairs reference prediction))
    by apply (spec_joint_pairs_map (fun x => x + k)).
  destruct (compute_nrmse_cases normalization Hshape)
    as [Hempty | [(Hr & Hm & Hs) | (Hne & nf & Hspec)]].
  - rewrite !compute_nrmse_empty; try assumption; [reflexivity|].
    rewrite Hpairs, Hempty; reflexivity.
  - destruct Hmethod; contradiction.
  - assert (Hrefs : map fst (spec_joint_pairs reference prediction) <> [])
      by (destruct (spec_joint_pairs reference prediction);
          [congruence | discriminate]).
    rewrite (compute_nrmse_value _ Hshape Hne (norm_factor_of_spec Hrefs Hspec)).
    assert (Hne' : spec_joint_pairs (ma_shift k reference)
                                    (ma_shift k prediction) <> [])
      by (rewrite Hpairs;
          destruct (spec_joint_pairs reference prediction);
          [congruence | discriminate]).
    assert (Hnf' : norm_factor_of normalization
                     (map fst (spec_joint_pairs (ma_shift k reference)
                                                (ma_shift k prediction)))
                   = Ok (Finite nf)).
    { rewrite Hpairs, (map_fst_pairs (fun x => x + k)).
      apply norm_factor_of_spec;
        [destruct (map fst (spec_joint_pairs reference prediction));
         [congruence | discriminate]
        | apply spec_norm_factor_shift; assumption]. }
    rewrite (compute_nrmse_value _ Hshape' Hne' Hnf'), Hpairs.
    rewrite spec_rmse_shift; reflexivity.
Qed.

Lemma nrmse_shift_invariant_witness :
  same_shape ref_patch pred_patch /\
  compute_nrmse (ma_shift 273 ref_patch) (ma_shift 273 pred_patch) "range"
  = compute_nrmse ref_patch pred_patch "range".
Proof.
  assert (Hshape : same_shape ref_patch pred_patch) by (repeat constructor).
  split; [exact Hshape|].
  exact (@nrmse_shift_invariant 273 ref_patch pred_patch "range"%string
           Hshape (or_introl eq_refl)).
Defined.

(** ** The batch loop *)

Lemma process_predictions_ok w folder var m ref_data :
  forall files results rs,
    process_predictions w folder var m ref_data files results = Ok rs ->
    exists new,
      rs = results ++ new /\
      map prediction_file new
      = filter (fun f => path_exists w (path_join folder f)) files /\
      Forall (reports_comparison w folder var m ref_data) new.
Proof.
  induction files as [|file files IH]; intros results rs H; simpl in H.
  - injection H as <-. exists []; rewrite app_nil_r; repeat split; constructor.
  - cbn [filter].
    destruct (path_exists w (path_join folder file)) eqn:Hex; cbn [negb] in H.
    + destruct (compute_nrmse ref_data
                  (resample_raster w (path_join folder file) ref_data) m)
        as [v|e] eqn:Hv; cbn [bind] in H; [|discriminate].
      destruct (IH _ _ H) as (new & -> & Hnames & Hall).
      eexists (_ :: new); rewrite <- app_assoc; split; [reflexivity|].
      split; [cbn [map prediction_file]; rewrite Hnames; reflexivity|].
      constructor; [|exact Hall].
      unfold reports_comparison; cbn; auto.
    + apply IH; assumption.
Qed.

Lemma process_predictions_raise w folder var m ref_data e :
  forall files results,
    process_predictions w folder var m ref_data files results = Raise e <->
    exists before file after,
      files = before ++ file :: after /\
      Forall (compares_ok w folder m ref_data) before /\
      compares_raising w folder m ref_data file e.
Proof.
  induction files as [|file files IH]; intro results; simpl.
  - split; [discriminate|].
    intros (before & f & after & H & _); destruct before; discriminate.
  - destruct (path_exists w (path_join folder file)) eqn:Hex; cbn [negb].
    + destruct (compute_nrmse ref_data
                  (resample_raster w (path_join folder file) ref_data) m)
        as [v|e'] eqn:Hv; cbn [bind].
      * rewrite IH. split.
        -- intros (before & f & after & -> & Hall & Hf).
           exists (file :: before), f, after.
           split; [reflexivity|]. split; [|exact Hf].
           constructor; [|exact Hall]. intros _; exists v; exact Hv.
        -- intros (before & f & after & Heq & Hall & Hf).
           destruct before as [|g before]; cbn in Heq; injection Heq as <- ->.
           ++ destruct Hf as [_ Hf]; congruence.
           ++ inversion Hall; subst. exists before, f, after; auto.
      * split.
        -- intros [= <-]. exists [], file, files.
           split; [reflexivity|]. split; [constructor|]. split; assumption.
        -- intros (before & f & after & Heq & Hall & Hf).
           destruct before as [|g before]; cbn in Heq; injection Heq as <- ->.
           ++ destruct Hf as [_ Hf]; congruence.
           ++ inversion Hall as [|? ? Hg _]; subst.
              destruct (Hg Hex) as [v Hv']; congruence.
    + rewrite IH. split.
      * intros (before & f & after & -> & Hall & Hf).
        exists (file :: before), f, after.
        split; [reflexivity|]. split; [|exact Hf].
        constructor; [|exact Hall]. intro Hex'; congruence.
      * intros (before & f & after & Heq & Hall & Hf).
        destruct before as [|g before]; cbn in Heq; injection Heq as <- ->.
        -- destruct Hf as [Hf _]; congruence.
        -- inversion Hall; subst. exists before, f, after; auto.
Qed.

Lemma process_nrmse_ok w folder var m records :
  process_nrmse w folder var m = Ok records ->
  (path_exists w (reference_path_of folder var) = false -> records = []) /\
  (path_exists w (reference_path_of folder var) = true ->
   map prediction_file records
   = filter (fun f => path_exists w (path_join folder f))
            (prediction_filenames_of var) /\
   Forall (reports_comparison w folder var m
             (read_masked w (reference_path_of folder var))) records).
Proof.
  unfold process_nrmse; cbv zeta.
  fold (reference_path_of folder var). fold (prediction_filenames_of var).
  destruct (path_exists w (reference_path_of folder var)); cbn [negb]; intro H.
  - split; [discriminate|]. intros _.
    destruct (process_predictions_ok _ _ _ _ _ _ _ H) as (new & -> & Hn & Hall).
    split; assumption.
  - split; [intros _; congruence | discriminate].
Qed.

Lemma process_nrmse_raise w folder var m e :
  process_nrmse w folder var m = Raise e <->
  path_exists w (reference_path_of folder var) = true /\
  exists before file after,
    prediction_filenames_of var = before ++ file :: after /\
    Forall (compares_ok w folder m
              (read_masked w (reference_path_of folder var))) before /\
    compares_raising w folder m
      (read_masked w (reference_path_of folder var)) file e.
Proof.
  unfold process_nrmse; cbv zeta.
  fold (reference_path_of folder var). fold (prediction_filenames_of var).
  destruct (path_exists w (reference_path_of folder var)); cbn [negb].
  - rewrite process_predictions_raise. tauto.
  - split; [discriminate | intros [H _]; discriminate].
Qed.

(** X15. What [process_nrmse] returns is complete and in order: without the
    reference file it is the empty list; otherwise it holds one record
    for each prediction file that exists, in the order 15 m, 20 m, 30 m,
    and each record carries the variable, the method and the value
    [compute_nrmse] returned for that file.  Missing prediction files are
    skipped, nothing else is. *)
Theorem process_nrmse_records w folder var m records :
  process_nrmse w folder var m = Ok records ->
  (path_exists w (reference_path_of folder var) = false -> records = []) /\
  (path_exists w (reference_path_of folder var) = true ->
   map prediction_file records
   = filter (fun f => path_exists w (path_join folder f))
            (prediction_filenames_of var) /\
   Forall (reports_comparison w folder var m
             (read_masked w (reference_path_of folder var))) records).
Proof. apply process_nrmse_ok. Qed.

(** X16. [process_nrmse] fails fast: it raises [e] exactly when the reference
    file exists and some existing prediction file's comparison raises [e]
    while every existing file before it compared without error.  The
    records of the earlier files are lost with it. *)
Theorem process_nrmse_fail_fast w folder var m e :
  process_nrmse w folder var m = Raise e <->
  path_exists w (reference_path_of folder var) = true /\
  exists before file after,
    prediction_filenames_of var = before ++ file :: after /\
    Forall (compares_ok w folder m
              (read_masked w (reference_path_of folder var))) before /\
    compares_raising w folder m
      (read_masked w (reference_path_of folder var)) file e.
Proof. apply process_nrmse_raise. Qed.

Lemma constant_against_itself :
  compute_nrmse ref_constant ref_constant "range" = Ok NaN.
Proof.
  assert (Hshape : same_shape ref_constant ref_constant)
    by apply same_shape_refl.
  rewrite (@compute_nrmse_value ref_constant ref_constant "range"%string
             (Finite (Rmax 5 5 - Rmin 5 5)) Hshape);
    [|discriminate|reflexivity].
  rewrite spec_rmse_identical by (repeat constructor).
  rewrite Rmax_left, Rmin_left by lra.
  replace (5 - 5) with 0 by ring.
  rewrite percent_zero_over_zero; reflexivity.
Qed.

Lemma two_files_run :
  process_nrmse (two_files ref_constant) "d" "v" "range"
  = Ok [undefined_record].
Proof.
  unfold process_nrmse; cbv zeta.
  cbn -[compute_nrmse ref_constant].
  rewrite constant_against_itself; reflexivity.
Qed.

Lemma process_nrmse_records_witness :
  process_nrmse (two_files ref_constant) "d" "v" "range"
  = Ok [undefined_record] /\
  path_exists (two_files ref_constant) (reference_path_of "d" "v") = true /\
  map prediction_file [undefined_record]
  = filter (fun f => path_exists (two_files ref_constant) (path_join "d" f))
           (prediction_filenames_of "v").
Proof.
  assert (Hex : path_exists (two_files ref_constant)
                            (reference_path_of "d" "v") = true)
    by reflexivity.
  split; [exact two_files_run|]. split; [exact Hex|].
  exact (proj1 (proj2 (@process_nrmse_records (two_files ref_constant)
                         "d" "v" "range" [undefined_record] two_files_run)
                      Hex)).
Defined.

(** ** Resampling onto the reference grid *)

Lemma getitem_resample_onto warp ref_raster i j :
  getitem (resample_onto warp ref_raster) i j
  = option_map (fun _ => masked_invalid_cell (warp i j))
               (getitem ref_raster i j).
Proof.
  unfold resample_onto, masked_invalid; cbv zeta.
  rewrite getitem_np_map, DetectorExtra.getitem_reproject_like.
  destruct (getitem ref_raster i j); reflexivity.
Qed.

Lemma same_shape_resample_onto warp ref_raster :
  same_shape ref_raster (resample_onto warp ref_raster).
Proof.
  unfold resample_onto, masked_invalid; cbv zeta.
  apply same_shape_trans with (b := reproject_like ref_raster warp);
    [apply same_shape_reproject_like | apply same_shape_np_map].
Qed.

Lemma resample_never_shape_error warp ref_raster normalization :
  compute_nrmse ref_raster (resample_onto warp ref_raster) normalization
  <> Raise ShapeError.
Proof.
  intro H.
  apply (raises_iff normalization ShapeError
           (same_shape_resample_onto warp ref_raster)) in H.
  destruct H as [(_ & _ & H) | (_ & _ & _ & H)]; discriminate.
Qed.

(** X17. What [resample_raster] returns always fits the reference: it has the
    reference's shape, its cell (i, j) is masked exactly when the sample
    [reproject] delivered there is not finite and otherwise holds that
    sample, and so comparing it with the reference never fails on
    shape. *)
Theorem resample_fits_reference warp ref_raster :
  same_shape ref_raster (resample_onto warp ref_raster) /\
  (forall i j cell x,
      getitem ref_raster i j = Some cell ->
      (getitem (resample_onto warp ref_raster) i j = Some (x, false)
       <-> warp i j = Finite x) /\
      ((exists x', getitem (resample_onto warp ref_raster) i j
                   = Some (x', true))
       <-> forall y, warp i j <> Finite y)) /\
  forall normalization,
    compute_nrmse ref_raster (resample_onto warp ref_raster) normalization
    <> Raise ShapeError.
Proof.
  split; [apply same_shape_resample_onto|].
  split; [|apply resample_never_shape_error].
  intros i j cell x Hcell.
  rewrite getitem_resample_onto, Hcell; cbn [option_map].
  destruct (warp i j) as [v| | | |]; cbn [masked_invalid_cell]; split; split;
    try (intros [= <-]; reflexivity);
    try (intros [= ->]; reflexivity);
    try discriminate;
    try (intros [x' H]; discriminate);
    try (intros H; exfalso; apply (H v); reflexivity);
    try (intros _ y; discriminate);
    try (intros _; eexists; reflexivity).
Qed.

(** ** The script *)

Lemma compute_range_ok reference prediction v :
  compute_nrmse reference prediction "range" = Ok v -> never_negative v.
Proof.
  intro H.
  assert (Hshape : same_shape reference prediction).
  { apply same_shapeb_iff. unfold compute_nrmse in H.
    destruct (same_shapeb reference prediction); [reflexivity | discriminate]. }
  destruct (spec_joint_pairs reference prediction) as [|rp pairs] eqn:Hpairs.
  - assert (Hraise : compute_nrmse reference prediction "range"
                     = Raise zero_size_maximum)
      by (apply (raises_iff _ _ Hshape); left; auto).
    congruence.
  - assert (Hne : spec_joint_pairs reference prediction <> [])
      by (rewrite Hpairs; discriminate).
    destruct (range_std_value Hshape Hne (or_introl eq_refl))
      as (v' & Hv' & Hnn).
    congruence.
Qed.

Lemma process_range_ok w folder var records :
  process_nrmse w folder var "range" = Ok records ->
  (length records <= 3)%nat /\
  Forall (fun r => variable r = var /\
                   normalization_method r = "range"%string /\
                   never_negative (nrmse r)) records.
Proof.
  intro H. apply process_nrmse_ok in H. destruct H as [Hmissing Hpresent].
  destruct (path_exists w (reference_path_of folder var)).
  - destruct (Hpresent eq_refl) as [Hnames Hall]. split.
    + rewrite <- (length_map prediction_file), Hnames.
      etransitivity; [apply filter_length_le | reflexivity].
    + eapply Forall_impl; [|exact Hall].
      intros r (Hvar & Hm & Hv). repeat split; try assumption.
      eapply compute_range_ok; eassumption.
  - rewrite (Hmissing eq_refl). split; [cbn; lia | constructor].
Qed.

Lemma collect_ok w ds :
  Forall (fun d => normalization d = "range"%string) ds ->
  forall acc rs,
    collect_results w ds acc = Ok rs ->
    exists new,
      rs = acc ++ new /\
      (length new <= 3 * length ds)%nat /\
      Forall (fun r => In (variable r) (map file_prefix ds) /\
                       normalization_method r = "range"%string /\
                       never_negative (nrmse r)) new.
Proof.
  induction 1 as [|d ds Hd Hds IH]; intros acc rs H; simpl in H.
  - injection H as <-. exists []; rewrite app_nil_r.
    repeat split; [cbn; lia | constructor].
  - rewrite Hd in H.
    destruct (process_nrmse w (path_join base_folder (var_folder d))
                            (file_prefix d) "range") as [results|e] eqn:Hp;
      cbn [bind] in H; [|discriminate].
    destruct (process_range_ok _ _ _ Hp) as [Hlen Hall].
    destruct (IH _ _ H) as (new & -> & Hlen' & Hall').
    exists (results ++ new). rewrite app_assoc. split; [reflexivity|]. split.
    + rewrite length_app; cbn [length]; lia.
    + apply Forall_app; split.
      * eapply Forall_impl; [|exact Hall].
        intros r (Hvar & Hm & Hv); repeat split; try assumption.
        left; symmetry; exact Hvar.
      * eapply Forall_impl; [|exact Hall'].
        intros r (Hvar & Hm & Hv); repeat split; try assumption.
        right; exact Hvar.
Qed.

Lemma datasets_all_range :
  Forall (fun d => normalization d = "range"%string) datasets.
Proof. repeat constructor. Qed.

Lemma never_invalid_in_script reference prediction d :
  In d datasets ->
  compute_nrmse reference prediction (normalization d) <> Raise invalid_method.
Proof.
  intros Hd H.
  assert (Hrange : normalization d = "range"%string).
  { pose proof datasets_all_range as Hall.
    rewrite Forall_forall in Hall; apply Hall; assumption. }
  rewrite Hrange in H.
  destruct (same_shapeb reference prediction) eqn:Hb.
  - apply same_shapeb_iff in Hb.
    apply (raises_iff _ _ Hb) in H.
    destruct H as [(_ & _ & H) | (H & _)]; [discriminate | congruence].
  - unfold compute_nrmse in H; rewrite Hb in H; discriminate.
Qed.

(** X18. The script as configured (six variables, all under 'range'):
    when it completes it holds at most 18 records, each for one of its
    variables, under 'range', with a value that is a non-negative number,
    +infinity or NaN, never a negative one and never the masked constant;
    and none of its comparisons can raise the invalid-method error. *)
Theorem script_completed_run w :
  (forall records,
      script w = Ok records ->
      (length records <= 18)%nat /\ Forall script_record records) /\
  (forall d reference prediction,
      In d datasets ->
      compute_nrmse reference prediction (normalization d)
      <> Raise invalid_method).
Proof.
  split.
  - intros records H.
    destruct (@collect_ok w datasets datasets_all_range [] records H)
      as (new & -> & Hlen & Hall).
    split; [exact Hlen | exact Hall].
  - intros d reference prediction Hd. apply never_invalid_in_script; assumption.
Qed.

Lemma collect_all_ok w ds :
  forall acc rs,
    collect_results w ds acc = Ok rs ->
    Forall (fun d => exists results,
                process_nrmse w (dataset_folder d) (file_prefix d)
                              (normalization d) = Ok results) ds.
Proof.
  induction ds as [|d ds IH]; intros acc rs H; simpl in H; [constructor|].
  fold (dataset_folder d) in H.
  destruct (process_nrmse w (dataset_folder d) (file_prefix d)
                          (normalization d)) as [results|e] eqn:Hp;
    cbn [bind] in H; [|discriminate].
  constructor; [exists results; exact Hp | eapply IH; eassumption].
Qed.

Lemma empty_overlap_not_ok w d file records :
  In d datasets ->
  In file (prediction_filenames_of (file_prefix d)) ->
  path_exists w (dataset_reference_path d) = true ->
  path_exists w (path_join (dataset_folder d) file) = true ->
  same_shape (dataset_reference w d) (dataset_prediction w d file) ->
  spec_joint_pairs (dataset_reference w d) (dataset_prediction w d file) = [] ->
  script w <> Ok records.
Proof.
  intros Hd Hfile Href Hpred Hshape Hempty Hok.
  pose proof (collect_all_ok _ _ _ Hok) as Hall.
  rewrite Forall_forall in Hall. destruct (Hall d Hd) as [results Hp].
  assert (Hrange : normalization d = "range"%string).
  { pose proof datasets_all_range as Hr.
    rewrite Forall_forall in Hr; apply Hr; assumption. }
  rewrite Hrange in Hp.
  apply process_nrmse_ok in Hp. destruct Hp as [_ Hpresent].
  destruct (Hpresent Href) as [Hnames Hrecords].
  assert (Hin : In file (map prediction_file results)).
  { rewrite Hnames. apply filter_In; split; assumption. }
  apply in_map_iff in Hin. destruct Hin as (r & Hr & Hrin).
  rewrite Forall_forall in Hrecords.
  destruct (Hrecords r Hrin) as (_ & _ & Hvalue).
  rewrite Hr in Hvalue.
  assert (Hraise : compute_nrmse (dataset_reference w d)
                                 (dataset_prediction w d file) "range"
                   = Raise zero_size_maximum)
    by (apply (raises_iff _ _ Hshape); left; auto).
  unfold dataset_prediction in *.
  unfold dataset_reference, dataset_reference_path, reference_path_of in *.
  congruence.
Qed.

(** X19. One prediction raster without overlap aborts the whole run: if,
    for one of the script's datasets, the reference file and one of its
    prediction files exist and the resampled prediction has no pixel valid
    in both rasters, the script returns no records at all, it raises,
    whatever the other rasters hold. *)
Theorem empty_overlap_aborts_run w d file :
  In d datasets ->
  In file (prediction_filenames_of (file_prefix d)) ->
  path_exists w (dataset_reference_path d) = true ->
  path_exists w (path_join (dataset_folder d) file) = true ->
  same_shape (dataset_reference w d) (dataset_prediction w d file) ->
  spec_joint_pairs (dataset_reference w d) (dataset_prediction w d file) = [] ->
  exists e, script w = Raise e.
Proof.
  intros Hd Hfile Href Hpred Hshape Hempty.
  destruct (script w) as [records|e] eqn:Hs; [|exists e; reflexivity].
  exfalso.
  exact (@empty_overlap_not_ok w d file records Hd Hfile Href Hpred
           Hshape Hempty Hs).
Qed.

Lemma empty_overlap_aborts_run_witness :
  In speed_dataset datasets /\
  In "Max_speed_N30m.tif"%string
     (prediction_filenames_of (file_prefix speed_dataset)) /\
  path_exists (blank_world ref_constant)
              (dataset_reference_path speed_dataset) = true /\
  path_exists (blank_world ref_constant)
              (path_join (dataset_folder speed_dataset) "Max_speed_N30m.tif")
  = true /\
  same_shape (dataset_reference (blank_world ref_constant) speed_dataset)
             (dataset_prediction (blank_world ref_constant) speed_dataset
                                 "Max_speed_N30m.tif") /\
  spec_joint_pairs
    (dataset_reference (blank_world ref_constant) speed_dataset)
    (dataset_prediction (blank_world ref_constant) speed_dataset
                        "Max_speed_N30m.tif") = [] /\
  exists e, script (blank_world ref_constant) = Raise e.
Proof.
  assert (Hd : In speed_dataset datasets) by (right; left; reflexivity).
  assert (Hfile : In "Max_speed_N30m.tif"%string
                     (prediction_filenames_of (file_prefix speed_dataset)))
    by (right; right; left; reflexivity).
  assert (Href : path_exists (blank_world ref_constant)
                             (dataset_reference_path speed_dataset) = true)
    by reflexivity.
  assert (Hpred : path_exists (blank_world ref_constant)
                    (path_join (dataset_folder speed_dataset)
                               "Max_speed_N30m.tif") = true)
    by reflexivity.
  assert (Hshape : same_shape
                     (dataset_reference (blank_world ref_constant) speed_dataset)
                     (dataset_prediction (blank_world ref_constant)
                        speed_dataset "Max_speed_N30m.tif"))
    by (repeat constructor).
  assert (Hempty : spec_joint_pairs
                     (dataset_reference (blank_world ref_constant) speed_dataset)
                     (dataset_prediction (blank_world ref_constant)
                        speed_dataset "Max_speed_N30m.tif") = [])
    by reflexivity.
  repeat (split; [assumption|]).
  exact (@empty_overlap_aborts_run (blank_world ref_constant) speed_dataset
           "Max_speed_N30m.tif" Hd Hfile Href Hpred Hshape Hempty).
Defined.

End NRMSEExtra.
